(** * google-maps-scrape-review: the metadata extraction pipeline

    A shallow embedding of [functions/index.js] (and of the older variant of
    the same handler) together with the properties of its text
    transformations.

    JavaScript strings are sequences of UTF-16 code units, and the regular
    expressions of the source have no [u] flag, so they see code units too.
    A string is therefore a [list Z] of code units here. *)

From Stdlib Require Import ZArith Lia Bool List Ascii String.
From stdpp Require Import base option list gmap.

Local Open Scope Z_scope.

Abbreviation jsstr := (list Z).

(** ** String literals

    The literals of the source are written as Rocq strings; this file is
    UTF-8, so a literal is decoded from UTF-8 to code points and encoded to
    UTF-16. *)

Definition fromCodePoint (cp : Z) : jsstr :=
  if cp <? 0x10000 then [cp]
  else [0xD800 + (cp - 0x10000) / 0x400; 0xDC00 + (cp - 0x10000) mod 0x400].

Fixpoint utf8_points (bs : list Z) : list Z :=
  match bs with
  | [] => []
  | b0 :: t0 =>
    if b0 <? 0x80 then b0 :: utf8_points t0
    else match t0 with
    | [] => []
    | b1 :: t1 =>
      if b0 <? 0xE0 then (b0 mod 0x20 * 0x40 + b1 mod 0x40) :: utf8_points t1
      else match t1 with
      | [] => []
      | b2 :: t2 =>
        if b0 <? 0xF0
        then (b0 mod 0x10 * 0x1000 + b1 mod 0x40 * 0x40 + b2 mod 0x40)
               :: utf8_points t2
        else match t2 with
        | [] => []
        | b3 :: t3 =>
          (b0 mod 0x8 * 0x40000 + b1 mod 0x40 * 0x1000
           + b2 mod 0x40 * 0x40 + b3 mod 0x40) :: utf8_points t3
        end
      end
    end
  end.

Definition js (s : string) : jsstr :=
  concat (map fromCodePoint
    (utf8_points (map (fun a => Z.of_N (N_of_ascii a)) (list_ascii_of_string s)))).

(** The double quote, the two rating glyphs and the characters the regular
    expressions name. *)
Definition dq : Z := 34.
Definition sq : Z := 39.
Definition star_filled : Z := 0x2605.
Definition star_empty : Z := 0x2606.

(** ** Character classes *)

Definition chr (c : Z) : Z -> bool := fun x => x =? c.
Definition not_chr (c : Z) : Z -> bool := fun x => negb (x =? c).
Definition oneof (l : list Z) : Z -> bool := fun x => existsb (Z.eqb x) l.
Definition noneof (l : list Z) : Z -> bool := fun x => negb (existsb (Z.eqb x) l).

(** [\d] without the [u] flag. *)
Definition digit : Z -> bool := fun x => (48 <=? x) && (x <=? 57).

(** LineTerminator: what [.] does not match. *)
Definition line_terminator : Z -> bool := oneof [0x0A; 0x0D; 0x2028; 0x2029].
Definition dot : Z -> bool := fun x => negb (line_terminator x).

(** WhiteSpace and LineTerminator: what [\s] matches and [trim] removes. *)
Definition space : Z -> bool := fun x =>
  oneof [0x09; 0x0A; 0x0B; 0x0C; 0x0D; 0x20; 0xA0; 0x1680; 0x2028; 0x2029;
         0x202F; 0x205F; 0x3000; 0xFEFF] x
  || ((0x2000 <=? x) && (x <=? 0x200A)).

(** Canonicalize of the [i] flag (no [u] flag): the upper-case mapping, kept
    only when it is one code unit and does not send a non-ASCII unit to
    ASCII.  Every literal of the case-insensitive patterns of this program
    is ASCII or [ü]; the mapping is written out for ASCII and for the
    Latin-1 letters, which is where a unit can share its image with one of
    those literals. *)
Definition canonicalize (c : Z) : Z :=
  if (97 <=? c) && (c <=? 122) then c - 32
  else if (0xE0 <=? c) && (c <=? 0xFE) && negb (c =? 0xF7) then c - 32
  else c.

Definition chr_i (c : Z) : Z -> bool := fun x => canonicalize x =? canonicalize c.

(** ** A backtracking matcher for the regular expressions of the source

    Every pattern of the program is a sequence of: one character of a
    class, a greedy or lazy repetition of a class, either of them inside a
    capturing group, a backreference, [^] and [$] (no [m] flag). *)

Inductive item :=
| One (p : Z -> bool)
| Many (greedy : bool) (lo : nat) (p : Z -> bool).

Inductive node :=
| Plain (i : item)
| Group (i : item)
| Backref (n : nat)
| Bos
| Eos.

Abbreviation regex := (list node).

Section Matcher.
Context {R : Type}.

(** [many g lo p k acc s]: the repetition has matched [acc] and needs [lo]
    more characters at least; [k txt rest] continues with the rest of the
    pattern.  Greedy takes one more character first and gives it back on
    failure; lazy tries to stop first. *)
Fixpoint many (g : bool) (lo : nat) (p : Z -> bool)
    (k : jsstr -> jsstr -> option R) (acc s : jsstr) : option R :=
  let more (_ : unit) :=
    match s with
    | c :: s' => if p c then many g (pred lo) p k (acc ++ [c]) s' else None
    | [] => None
    end in
  let stop (_ : unit) :=
    match lo with O => k acc s | S _ => None end in
  if g
  then match more () with Some r => Some r | None => stop () end
  else match stop () with Some r => Some r | None => more () end.

Definition item_match (i : item) (k : jsstr -> jsstr -> option R)
    (s : jsstr) : option R :=
  match i with
  | One p =>
    match s with
    | c :: s' => if p c then k [c] s' else None
    | [] => None
    end
  | Many g lo p => many g lo p k [] s
  end.
End Matcher.

(** [run pat pos caps s]: match [pat] against [s], which starts at index
    [pos] of the subject; the result is the captures and what is left of the
    subject. *)
Fixpoint run (pat : regex) (pos : nat) (caps : list jsstr) (s : jsstr)
    : option (list jsstr * jsstr) :=
  match pat with
  | [] => Some (caps, s)
  | Plain i :: pat' =>
    item_match i (fun txt rest => run pat' (pos + length txt)%nat caps rest) s
  | Group i :: pat' =>
    item_match i
      (fun txt rest => run pat' (pos + length txt)%nat (caps ++ [txt]) rest) s
  | Backref n :: pat' =>
    let t := nth (pred n) caps [] in
    if bool_decide (take (length t) s = t)
    then run pat' (pos + length t)%nat caps (drop (length t) s)
    else None
  | Bos :: pat' => if (pos =? 0)%nat then run pat' pos caps s else None
  | Eos :: pat' => match s with [] => run pat' pos caps s | _ => None end
  end.

(** The match array of [String.prototype.match] without [g] and of
    [RegExp.prototype.exec]: element 0 is the matched text, then the
    groups. *)
Definition match_at (pat : regex) (pos : nat) (s : jsstr) : option (list jsstr) :=
  match run pat pos [] s with
  | Some (caps, rest) => Some (take (length s - length rest) s :: caps)
  | None => None
  end.

Fixpoint search (pat : regex) (pos : nat) (s : jsstr) : option (list jsstr) :=
  match match_at pat pos s with
  | Some m => Some m
  | None =>
    match s with
    | [] => None
    | _ :: s' => search pat (S pos) s'
    end
  end.

Definition js_match (pat : regex) (s : jsstr) : option (list jsstr) :=
  search pat 0 s.

(** [m[i]] of a match array. *)
Definition grp (m : list jsstr) (i : nat) : jsstr := nth i m [].

Definition lit (s : jsstr) : regex := map (fun c => Plain (One (chr c))) s.
Definition lit_i (s : jsstr) : regex := map (fun c => Plain (One (chr_i c))) s.

(** ** Global matching: [replace] and [match] with the [g] flag

    The subject is walked once.  [skip] counts the characters still covered
    by the last match; where a match is empty the next character is kept and
    the walk goes on one character further, as [lastIndex] does. *)

Inductive piece :=
| Kept (c : Z)
| Hit (m : list jsstr).

Fixpoint scan (pat : regex) (skip pos : nat) (s : jsstr) : list piece :=
  match skip with
  | S k =>
    match s with
    | [] => []
    | _ :: s' => scan pat k (S pos) s'
    end
  | O =>
    match match_at pat pos s with
    | Some m =>
      Hit m ::
        match s with
        | [] => []
        | c :: s' =>
          match length (grp m 0) with
          | O => Kept c :: scan pat 0 (S pos) s'
          | S k => scan pat k (S pos) s'
          end
        end
    | None =>
      match s with
      | [] => []
      | c :: s' => Kept c :: scan pat 0 (S pos) s'
      end
    end
  end.

(** "s.replace(/pat/g, f)" with a replacer function; a replacement string
    without a dollar sign is the constant function. *)
Definition replace_all (pat : regex) (f : list jsstr -> jsstr) (s : jsstr) : jsstr :=
  concat (map (fun p => match p with Kept c => [c] | Hit m => f m end)
              (scan pat 0 0 s)).

(** "s.match(/pat/g) || []": the matched texts. *)
Definition match_all (pat : regex) (s : jsstr) : list jsstr :=
  omap (fun p => match p with Kept _ => None | Hit m => Some (grp m 0) end)
       (scan pat 0 0 s).

(** ** String methods *)

Fixpoint trimStart (s : jsstr) : jsstr :=
  match s with
  | c :: s' => if space c then trimStart s' else s
  | [] => []
  end.

Definition trimEnd (s : jsstr) : jsstr := rev (trimStart (rev s)).

Definition trim (s : jsstr) : jsstr := trimEnd (trimStart s).

(** [s.split(sep)] for a separator of one character. *)
Fixpoint split (sep : Z) (s : jsstr) : list jsstr :=
  match s with
  | [] => [[]]
  | c :: s' =>
    if c =? sep then [] :: split sep s'
    else match split sep s' with
         | p :: ps => (c :: p) :: ps
         | [] => [[c]]
         end
  end.

(** A string in a condition: the empty string is the only falsy one. *)
Definition truthy (s : jsstr) : bool :=
  match s with [] => false | _ => true end.

(** ToNumber of a string of decimal digits: the nearest double, ties to
    even; [None] is [Infinity]. *)
Definition digits_value (ds : jsstr) : Z :=
  fold_left (fun acc d => acc * 10 + (d - 48)) ds 0.

Definition nearest_double (n : Z) : option Z :=
  if n <? 2 ^ 53 then Some n
  else
    let e := Z.log2 n - 52 in
    let q := n / 2 ^ e in
    let r := n mod 2 ^ e in
    let q' := if (2 ^ (e - 1) <? r) || ((2 ^ (e - 1) =? r) && Z.odd q)
              then q + 1 else q in
    if q' * 2 ^ e <? 2 ^ 1024 then Some (q' * 2 ^ e) else None.

Definition ToUint16 (x : option Z) : Z :=
  match x with
  | Some n => n mod 2 ^ 16
  | None => 0
  end.

(** [String.fromCharCode(ds)] for a string of decimal digits. *)
Definition fromCharCode (ds : jsstr) : jsstr :=
  [ToUint16 (nearest_double (digits_value ds))].

(** ** [decodeHTMLEntities] *)

Definition entities : gmap (list Z) (list Z) :=
  list_to_map
    [ (js "&amp;", js "&");
      (js "&lt;", js "<");
      (js "&gt;", js ">");
      (js "&quot;", [dq]);
      (js "&#39;", js "'");
      (js "&nbsp;", js " ");
      (js "&apos;", js "'");
      (js "&#x2F;", js "/");
      (js "&#x27;", js "'");
      (js "&#x60;", js "`");
      (js "&ldquo;", [dq]);
      (js "&rdquo;", [dq]);
      (js "&rsquo;", js "'");
      (js "&lsquo;", js "'");
      (js "&ndash;", js "–");
      (js "&mdash;", js "—") ].

(** The pattern "/&[^;]+;/". *)
Definition entityRe : regex :=
  [Plain (One (chr 38)); Plain (Many true 1 (not_chr 59)); Plain (One (chr 59))].

(** The pattern "/&#(\d+);/". *)
Definition numericRe : regex :=
  lit (js "&#") ++ [Group (Many true 1 digit)] ++ lit (js ";").

(** The replacer of [decodeHTMLEntities].  A matched entity starts with
    [&], so [entities[entity]] never reaches a property of
    [Object.prototype]. *)
Definition decode_entity (entity : jsstr) : jsstr :=
  match entities !! entity with
  | Some v =>
    if truthy v then v
    else match js_match numericRe entity with
         | Some m => fromCharCode (grp m 1)
         | None => entity
         end
  | None =>
    match js_match numericRe entity with
    | Some m => fromCharCode (grp m 1)
    | None => entity
    end
  end.

Definition decodeHTMLEntities (text : jsstr) : jsstr :=
  if negb (truthy text) then []
  else replace_all entityRe (fun m => decode_entity (grp m 0)) text.

(** ** [extractMetaContent] *)

(** The source builds the meta tag pattern from a string that holds the
    itemprop.  [literal_itemprop] says that the itemprop stands for itself
    in that string: its characters are ASCII and none of them belongs to the
    pattern syntax (backslash, caret, dollar, dot, bar, question mark, star,
    plus, round, square and curly brackets). *)
Definition pattern_syntax : list Z :=
  [92; 94; 36; 46; 124; 63; 42; 43; 40; 41; 91; 93; 123; 125].

Definition literal_itemprop (itemprop : jsstr) : bool :=
  forallb (fun c => (0 <=? c) && (c <? 128) && noneof pattern_syntax c) itemprop.

(** The pattern "<meta[^>]*itemprop=\x22${itemprop}\x22[^>]*>" with the
    flag i (here and below \x22 is the double quote), for a
    [literal_itemprop]: the two callers pass 'name' and 'description'.  For
    any other itemprop the source has another pattern, or none (the
    constructor throws), and this definition says nothing about it.  No
    character canonicalizes to the closing angle bracket, so its negated
    class is the same with and without the flag. *)
Definition metaTagRe (itemprop : jsstr) : regex :=
  lit_i (js "<meta") ++ [Plain (Many true 0 (not_chr 62))]
  ++ lit_i (js "itemprop=" ++ [dq] ++ itemprop ++ [dq])
  ++ [Plain (Many true 0 (not_chr 62))] ++ lit_i (js ">").

(** The pattern "/content=(['\x22])(.*?)\1/". *)
Definition contentRe : regex :=
  lit (js "content=")
  ++ [Group (One (oneof [sq; dq])); Group (Many false 0 dot); Backref 1].

Definition extractMetaContent (html itemprop : jsstr) : jsstr :=
  let metaTag :=
    match js_match (metaTagRe itemprop) html with
    | Some m => if truthy (grp m 0) then grp m 0 else []
    | None => []
    end in
  match js_match contentRe metaTag with
  | Some contentMatch => decodeHTMLEntities (grp contentMatch 2)
  | None => []
  end.

(** ** [parseReviewTitle] *)

Record parsedTitle := { businessName : jsstr; reviewerName : jsstr }.

(** The pattern "/Google-Rezension über (.*?) von (.{0,})/i". *)
Definition germanRe : regex :=
  lit_i (js "Google-Rezension über ") ++ [Group (Many false 0 dot)]
  ++ lit_i (js " von ") ++ [Group (Many true 0 dot)].

(** The pattern "/Google review of (.*?) by (.{0,})/i". *)
Definition englishRe : regex :=
  lit_i (js "Google review of ") ++ [Group (Many false 0 dot)]
  ++ lit_i (js " by ") ++ [Group (Many true 0 dot)].

Definition parseReviewTitle (title : jsstr) : parsedTitle :=
  match js_match germanRe title with
  | Some germanMatch =>
    {| businessName := trim (grp germanMatch 1);
       reviewerName := trim (grp germanMatch 2) |}
  | None =>
    match js_match englishRe title with
    | Some englishMatch =>
      {| businessName := trim (grp englishMatch 1);
         reviewerName := trim (grp englishMatch 2) |}
    | None => {| businessName := []; reviewerName := [] |}
    end
  end.

(** ** [getReviewContent] *)

(** The fallback sentence, which the source writes out at both of its
    uses. *)
Definition placeholder (language : jsstr) : jsstr :=
  if bool_decide (language = js "de")
  then js "Es handelt sich um eine Sterne-Bewertung ohne Begründung"
  else js "This is a star rating without any review text".

(** The patterns "/[★☆]/g" and "/★/g". *)
Definition anyStarRe : regex := [Plain (One (oneof [star_filled; star_empty]))].
Definition filledStarRe : regex := [Plain (One (chr star_filled))].

(** The pattern "/^\x22(.*?)\x22$/". *)
Definition quoteRe : regex :=
  [Bos; Plain (One (chr dq)); Group (Many false 0 dot); Plain (One (chr dq)); Eos].

(** "description.replace(/[★☆]/g, '').trim()" *)
Definition cleanDescription (description : jsstr) : jsstr :=
  trim (replace_all anyStarRe (fun _ => []) description).

Definition getReviewContent (description language : jsstr) : jsstr :=
  let clean := cleanDescription description in
  if negb (truthy clean) then placeholder language
  else
    match js_match quoteRe clean with
    | Some quoteMatch => trim (grp quoteMatch 1)
    | None => if truthy clean then clean else placeholder language
    end.

(** "(description.match(/★/g) || []).length" *)
Definition countStars (description : jsstr) : nat :=
  length (match_all filledStarRe description).

(** ** The page language *)

(** The pattern "/<html[^>]*lang=\x22([^\x22]{0,})\x22/". *)
Definition langRe : regex :=
  lit (js "<html") ++ [Plain (Many true 0 (not_chr 62))]
  ++ lit (js "lang=" ++ [dq]) ++ [Group (Many true 0 (not_chr dq))] ++ lit [dq].

(** "langMatch[1]?.split('-')[0] || 'en'" *)
Definition pageLang (html : jsstr) : jsstr :=
  match js_match langRe html with
  | Some langMatch =>
    let primary := hd [] (split 45 (grp langMatch 1)) in
    if truthy primary then primary else js "en"
  | None => js "en"
  end.

(** ** The HTTP handler

    The handler meets the outside world twice: it reads the request and it
    awaits [fetch] and then [response.text()].  [fetch] of node-fetch
    resolves with a response for every status code the server answers with
    and rejects when no response arrives; either await may throw, and the
    [try] block catches both.  The outcome of the two awaits is an input of
    the model. *)

Inductive body_outcome :=
| BodyText (html : jsstr)
| BodyRejected (message : jsstr).

Inductive fetch_outcome :=
| FetchRejected (message : jsstr)
| FetchResolved (status : Z) (text : body_outcome).

Record request := { method : jsstr; query_url : option jsstr }.

Module Reply.

Record language := { detected : jsstr; pageLang : jsstr }.

Record data := {
  businessName : jsstr;
  reviewerName : jsstr;
  rating : nat;
  reviewContent : jsstr;
  lang : language
}.

Record hasData := {
  hasBusinessName : bool;
  hasReviewerName : bool;
  hasReviewContent : bool
}.

Record debugInfo := {
  url : jsstr;
  has : hasData;
  statusCode : Z;
  rawMeta : option (jsstr * jsstr)
}.

Inductive body :=
| Text (s : jsstr)
| Error (error : jsstr)
| Success (d : data) (debug : debugInfo)
| Failure (error : jsstr) (message : jsstr).

Record t := { status : Z; headers : list (jsstr * jsstr); payload : body }.

(** The [success] field of the JSON body, where it has one. *)
Definition success (r : t) : option bool :=
  match payload r with
  | Success _ _ => Some true
  | Failure _ _ => Some false
  | _ => None
  end.

(** [details.message] of the JSON body, where it has one. *)
Definition details (r : t) : option jsstr :=
  match payload r with
  | Failure _ message => Some message
  | _ => None
  end.

End Reply.

Definition userAgents : list jsstr :=
  [ js "Mozilla/5.0 (Windows NT 10.0; Win64; x64) AppleWebKit/537.36 (KHTML, like Gecko) Chrome/120.0.0.0 Safari/537.36";
    js "Mozilla/5.0 (Macintosh; Intel Mac OS X 10_15_7) AppleWebKit/537.36 (KHTML, like Gecko) Chrome/120.0.0.0 Safari/537.36" ].

Definition cors : list (jsstr * jsstr) :=
  [ (js "Access-Control-Allow-Origin", js "*");
    (js "Access-Control-Allow-Methods", js "GET");
    (js "Access-Control-Allow-Headers", js "Content-Type") ].

Definition fetch_headers (pick : nat) : list (jsstr * jsstr) :=
  [ (js "User-Agent", nth (pick mod length userAgents) userAgents []);
    (js "Accept", js "text/html,application/xhtml+xml,application/xml;q=0.9,image/webp,*/*;q=0.8");
    (js "Accept-Language", js "en-US,en;q=0.5");
    (js "Accept-Encoding", js "gzip, deflate, br") ].

Definition failure (message : jsstr) : Reply.t :=
  {| Reply.status := 500; Reply.headers := cors;
     Reply.payload := Reply.Failure (js "Failed to scrape data") message |}.

(** The body of the [try] block of [functions/index.js] once the page text
    is there. *)
Definition scrape (url : jsstr) (status : Z) (html : jsstr) : Reply.t :=
  let lang := pageLang html in
  let nameContent := extractMetaContent html (js "name") in
  let description := extractMetaContent html (js "description") in
  let title := parseReviewTitle nameContent in
  let rating := countStars description in
  let reviewContent := getReviewContent description lang in
  {| Reply.status := 200; Reply.headers := cors;
     Reply.payload :=
       Reply.Success
         {| Reply.businessName := businessName title;
            Reply.reviewerName := reviewerName title;
            Reply.rating := rating;
            Reply.reviewContent := reviewContent;
            Reply.lang := {| Reply.detected := lang; Reply.pageLang := lang |} |}
         {| Reply.url := url;
            Reply.has :=
              {| Reply.hasBusinessName := truthy (businessName title);
                 Reply.hasReviewerName := truthy (reviewerName title);
                 Reply.hasReviewContent := truthy reviewContent |};
            Reply.statusCode := status;
            Reply.rawMeta := Some (nameContent, description) |} |}.

Section Handler.
(** The network: what [fetch] does for a URL and the request headers, and
    the draw of [Math.random] that picks the user agent. *)
Variable fetch : jsstr -> list (jsstr * jsstr) -> fetch_outcome.
Variable pick : nat.

Definition googleReviewScraper (req : request) : Reply.t :=
  if bool_decide (method req = js "OPTIONS")
  then {| Reply.status := 204; Reply.headers := cors; Reply.payload := Reply.Text [] |}
  else
    match query_url req with
    | None =>
      {| Reply.status := 400; Reply.headers := cors;
         Reply.payload := Reply.Error (js "URL parameter is required") |}
    | Some url =>
      if negb (truthy url)
      then {| Reply.status := 400; Reply.headers := cors;
              Reply.payload := Reply.Error (js "URL parameter is required") |}
      else
        match fetch url (fetch_headers pick) with
        | FetchRejected message => failure message
        | FetchResolved status (BodyRejected message) => failure message
        | FetchResolved status (BodyText html) => scrape url status html
        end
    end.
End Handler.

(** ** The older variant of the handler

    It extracts the description without decoding it, reads the review text
    with one anchored pattern and takes the title templates from
    [utils/languages.json]. *)

Module Variant2.

(** The pattern "/^[★☆]+\s*\x22(.*?)\x22$/". *)
Definition reviewRegex : regex :=
  [ Bos; Plain (Many true 1 (oneof [star_filled; star_empty]));
    Plain (Many true 0 space); Plain (One (chr dq));
    Group (Many false 0 dot); Plain (One (chr dq)); Eos ].

(** The pattern
    "/<meta[^>]*content=['\x22]([^'\x22]{0,})['\x22][^>]*itemprop=['\x22]name['\x22]/i". *)
Definition nameRe : regex :=
  lit_i (js "<meta") ++ [Plain (Many true 0 (not_chr 62))]
  ++ lit_i (js "content=")
  ++ [ Plain (One (oneof [sq; dq])); Group (Many true 0 (noneof [sq; dq]));
       Plain (One (oneof [sq; dq])); Plain (Many true 0 (not_chr 62)) ]
  ++ lit_i (js "itemprop=") ++ [Plain (One (oneof [sq; dq]))]
  ++ lit_i (js "name") ++ [Plain (One (oneof [sq; dq]))].

Definition fullContent (html : jsstr) : jsstr :=
  let metaTag :=
    match js_match (metaTagRe (js "description")) html with
    | Some m => if truthy (grp m 0) then grp m 0 else []
    | None => []
    end in
  match js_match contentRe metaTag with
  | Some contentMatch => grp contentMatch 2
  | None => []
  end.

Definition reviewContent (fullContent : jsstr) : jsstr :=
  match js_match reviewRegex fullContent with
  | Some reviewMatch => decodeHTMLEntities (grp reviewMatch 1)
  | None => []
  end.

Definition name (html : jsstr) : jsstr :=
  match js_match nameRe html with
  | Some nameMatch => grp nameMatch 1
  | None => []
  end.

(** The loop over [Object.entries(LANGUAGE_PATTERNS)]: business name,
    reviewer name and detected language of the first pattern that
    matches; the three start as empty strings.  The match array of a
    pattern with fewer than two groups has no element 1 or 2, and reading
    [trim] of [undefined] throws a TypeError: [None] is that throw. *)
Fixpoint matchTitle (patterns : list (jsstr * regex)) (name : jsstr)
    : option (jsstr * jsstr * jsstr) :=
  match patterns with
  | [] => Some ([], [], [])
  | (lang, pattern) :: patterns' =>
    match js_match pattern name with
    | Some m =>
      match m !! 1%nat, m !! 2%nat with
      | Some business, Some reviewer =>
        Some (decodeHTMLEntities (trim business),
              decodeHTMLEntities (trim reviewer), lang)
      | _, _ => None
      end
    | None => matchTitle patterns' name
    end
  end.

Section Handler.
(** The patterns of [utils/languages.json], in the order of its keys. *)
Variable LANGUAGE_PATTERNS : list (jsstr * regex).
(** The message of the TypeError that the engine raises for [trim] of
    [undefined]; its wording is the engine's. *)
Variable type_error : jsstr.
Variable fetch : jsstr -> list (jsstr * jsstr) -> fetch_outcome.
Variable pick : nat.

(** The body of the [try] block once the page text is there; a throw in
    the title loop ends in the [catch] block. *)
Definition scrape (url : jsstr) (status : Z) (html : jsstr) : Reply.t :=
  let lang := pageLang html in
  let content := fullContent html in
  let review := reviewContent content in
  match matchTitle LANGUAGE_PATTERNS (name html) with
  | None => failure type_error
  | Some (business, reviewer, detectedLanguage) =>
    let rating := countStars content in
    {| Reply.status := 200; Reply.headers := cors;
       Reply.payload :=
         Reply.Success
           {| Reply.businessName := business;
              Reply.reviewerName := reviewer;
              Reply.rating := rating;
              Reply.reviewContent := review;
              Reply.lang :=
                {| Reply.detected :=
                     if truthy detectedLanguage then detectedLanguage else lang;
                   Reply.pageLang := lang |} |}
           {| Reply.url := url;
              Reply.has :=
                {| Reply.hasBusinessName := truthy business;
                   Reply.hasReviewerName := truthy reviewer;
                   Reply.hasReviewContent := truthy review |};
              Reply.statusCode := status;
              Reply.rawMeta := None |} |}
  end.

Definition googleReviewScraper (req : request) : Reply.t :=
  if bool_decide (method req = js "OPTIONS")
  then {| Reply.status := 204; Reply.headers := cors; Reply.payload := Reply.Text [] |}
  else
    match query_url req with
    | None =>
      {| Reply.status := 400; Reply.headers := cors;
         Reply.payload := Reply.Error (js "URL parameter is required") |}
    | Some url =>
      if negb (truthy url)
      then {| Reply.status := 400; Reply.headers := cors;
              Reply.payload := Reply.Error (js "URL parameter is required") |}
      else
        match fetch url (fetch_headers pick) with
        | FetchRejected message => failure message
        | FetchResolved status (BodyRejected message) => failure message
        | FetchResolved status (BodyText html) => scrape url status html
        end
    end.
End Handler.

End Variant2.

(** ** Notions the properties are stated with *)

(** The rating glyphs: the filled and the empty star. *)
Definition rating_glyph (c : Z) : Prop := c = star_filled \/ c = star_empty.

#[global] Instance rating_glyph_dec (c : Z) : Decision (rating_glyph c) :=
  or_dec (decide (c = star_filled)) (decide (c = star_empty)).

(** [occursb needle s]: [needle] is a substring of [s]. *)
Fixpoint occursb (needle s : jsstr) : bool :=
  bool_decide (take (length needle) s = needle)
  || match s with
     | [] => false
     | _ :: s' => occursb needle s'
     end.

(** [occursb_i needle s]: [needle] is a substring of [s] when case is
    ignored the way the [i] flag ignores it. *)
Definition occursb_i (needle s : jsstr) : bool :=
  occursb (map canonicalize needle) (map canonicalize s).




(** * Properties *)

(** ** The matcher *)

Section ManyFacts.
Context {R : Type}.
Implicit Types (k : jsstr -> jsstr -> option R) (p : Z -> bool).

Lemma many_nil g lo p k acc :
  many g lo p k acc [] = match lo with O => k acc [] | S _ => None end.
Proof. destruct g, lo; simpl; try reflexivity; destruct (k acc []); reflexivity. Qed.

Lemma many_cons_greedy lo p k acc c s :
  many true lo p k acc (c :: s) =
  match (if p c then many true (pred lo) p k (acc ++ [c]) s else None) with
  | Some r => Some r
  | None => match lo with O => k acc (c :: s) | S _ => None end
  end.
Proof. reflexivity. Qed.

Lemma many_cons_lazy lo p k acc c s :
  many false lo p k acc (c :: s) =
  match (match lo with O => k acc (c :: s) | S _ => None end) with
  | Some r => Some r
  | None => if p c then many false (pred lo) p k (acc ++ [c]) s else None
  end.
Proof. reflexivity. Qed.

(** Whatever a repetition returns comes from one way of cutting the
    subject: a run of the class, long enough, and the continuation on the
    rest. *)
Lemma many_Some g lo p k acc s r :
  many g lo p k acc s = Some r ->
  exists txt rest,
    s = txt ++ rest /\ forallb p txt = true /\ (lo <= length txt)%nat
    /\ k (acc ++ txt) rest = Some r.
Proof.
  revert lo acc.
  induction s as [|c s IH]; intros lo acc H.
  - rewrite many_nil in H. destruct lo; [|discriminate].
    exists [], []. rewrite (app_nil_r acc). repeat split; simpl; auto.
  - assert (Hstop : match lo with O => k acc (c :: s) | S _ => None end = Some r ->
             exists txt rest, c :: s = txt ++ rest /\ forallb p txt = true
               /\ (lo <= length txt)%nat /\ k (acc ++ txt) rest = Some r).
    { destruct lo; [|discriminate]. intros Hk.
      exists [], (c :: s). rewrite (app_nil_r acc). repeat split; simpl; auto. }
    assert (Hmore : (if p c then many g (pred lo) p k (acc ++ [c]) s else None) = Some r ->
             exists txt rest, c :: s = txt ++ rest /\ forallb p txt = true
               /\ (lo <= length txt)%nat /\ k (acc ++ txt) rest = Some r).
    { destruct (p c) eqn:Hp; [|discriminate]. intros Hm.
      apply IH in Hm as (txt & rest & -> & Hall & Hlo & Hk).
      exists (c :: txt), rest. rewrite <- app_assoc in Hk.
      simpl. rewrite Hp, Hall. repeat split; auto. lia. }
    destruct g.
    + rewrite many_cons_greedy in H.
      destruct (if p c then many true (pred lo) p k (acc ++ [c]) s else None) eqn:E.
      * apply Hmore. congruence.
      * auto.
    + rewrite many_cons_lazy in H.
      destruct (match lo with O => k acc (c :: s) | S _ => None end) eqn:E.
      * apply Hstop. congruence.
      * auto.
Qed.

(** A repetition fails only when every such cut fails. *)
Lemma many_None g lo p k acc s :
  (forall txt rest,
     s = txt ++ rest -> forallb p txt = true -> (lo <= length txt)%nat ->
     k (acc ++ txt) rest = None) ->
  many g lo p k acc s = None.
Proof.
  revert lo acc.
  induction s as [|c s IH]; intros lo acc H.
  - rewrite many_nil. destruct lo; [|reflexivity].
    specialize (H [] []). rewrite (app_nil_r acc) in H. apply H; auto.
  - assert (Hstop : match lo with O => k acc (c :: s) | S _ => None end = None).
    { destruct lo; [|reflexivity].
      specialize (H [] (c :: s)). rewrite (app_nil_r acc) in H. apply H; auto. }
    assert (Hmore : (if p c then many g (pred lo) p k (acc ++ [c]) s else None) = None).
    { destruct (p c) eqn:Hp; [|reflexivity].
      apply IH. intros txt rest -> Hall Hlo.
      rewrite <- app_assoc. apply (H (c :: txt) rest); simpl; auto.
      - rewrite Hp, Hall. reflexivity.
      - lia. }
    destruct g.
    + rewrite many_cons_greedy, Hmore. exact Hstop.
    + rewrite many_cons_lazy, Hstop. exact Hmore.
Qed.

(** One cut that succeeds is enough for the repetition to succeed. *)
Lemma many_is_Some g lo p k acc txt rest :
  forallb p txt = true -> (lo <= length txt)%nat ->
  is_Some (k (acc ++ txt) rest) ->
  is_Some (many g lo p k acc (txt ++ rest)).
Proof.
  revert lo acc.
  induction txt as [|c txt IH]; intros lo acc Hall Hlo Hk.
  - rewrite (app_nil_r acc) in Hk. simpl in Hlo. assert (lo = 0%nat) as -> by lia.
    rewrite app_nil_l. destruct rest as [|c s].
    + rewrite many_nil. exact Hk.
    + destruct g.
      * rewrite many_cons_greedy.
        destruct (if p c then many true (pred 0) p k (acc ++ [c]) s else None); eauto.
      * rewrite many_cons_lazy. destruct Hk as [r ->]. eauto.
  - simpl in Hall. apply andb_true_iff in Hall as [Hp Hall].
    assert (Hm : is_Some (many g (pred lo) p k (acc ++ [c]) (txt ++ rest))).
    { apply IH; auto.
      - simpl in Hlo. lia.
      - rewrite <- app_assoc. exact Hk. }
    rewrite <- app_comm_cons. destruct g.
    + rewrite many_cons_greedy, Hp. destruct Hm as [r ->]. eauto.
    + rewrite many_cons_lazy, Hp.
      destruct (match lo with O => k acc (c :: txt ++ rest) | S _ => None end); eauto.
Qed.
End ManyFacts.

Lemma run_one_Some p pat pos caps s r :
  run (Plain (One p) :: pat) pos caps s = Some r ->
  exists c rest, s = c :: rest /\ p c = true /\ run pat (S pos) caps rest = Some r.
Proof.
  simpl. destruct s as [|c rest]; [discriminate|].
  destruct (p c) eqn:Hp; [|discriminate].
  rewrite Nat.add_1_r. eauto.
Qed.

Lemma run_one_cons p pat pos caps c rest :
  run (Plain (One p) :: pat) pos caps (c :: rest) =
  if p c then run pat (S pos) caps rest else None.
Proof. simpl. rewrite Nat.add_1_r. reflexivity. Qed.

(** A pattern that starts with literal text matches only a subject that
    starts with that text. *)
Lemma run_lit_Some l pat pos caps s r :
  run (lit l ++ pat) pos caps s = Some r ->
  exists rest, s = l ++ rest /\ run pat (pos + length l) caps rest = Some r.
Proof.
  revert pos s.
  induction l as [|c l IH]; intros pos s H.
  - exists s. rewrite Nat.add_0_r. auto.
  - change (lit (c :: l) ++ pat) with (Plain (One (chr c)) :: (lit l ++ pat)) in H.
    apply run_one_Some in H as (x & rest & -> & Hx & H).
    apply Z.eqb_eq in Hx as ->.
    apply IH in H as (rest' & -> & H).
    exists rest'. split; [reflexivity|].
    simpl length. rewrite <- Nat.add_succ_comm. exact H.
Qed.

Lemma run_lit_app l pat pos caps rest :
  run (lit l ++ pat) pos caps (l ++ rest) = run pat (pos + length l) caps rest.
Proof.
  revert pos.
  induction l as [|c l IH]; intros pos.
  - simpl. rewrite Nat.add_0_r. reflexivity.
  - change (lit (c :: l) ++ pat) with (Plain (One (chr c)) :: (lit l ++ pat)).
    rewrite <- app_comm_cons, run_one_cons.
    unfold chr at 1. rewrite Z.eqb_refl, IH.
    simpl length. rewrite <- Nat.add_succ_comm. reflexivity.
Qed.

(** What is left after a match is a suffix of the subject. *)
Lemma run_suffix pat pos caps s caps' rest :
  run pat pos caps s = Some (caps', rest) -> exists txt, s = txt ++ rest.
Proof.
  revert pos caps s.
  induction pat as [|n pat IH]; intros pos caps s H.
  - injection H as _ <-. exists []. reflexivity.
  - assert (Hitem : forall i (k : jsstr -> jsstr -> option (list jsstr * jsstr)),
               (forall txt r, k txt r = Some (caps', rest) -> exists t, r = t ++ rest) ->
               item_match i k s = Some (caps', rest) -> exists t, s = t ++ rest).
    { intros [p|g lo p] k Hk Hi; simpl in Hi.
      - destruct s as [|c s']; [discriminate|].
        destruct (p c); [|discriminate].
        apply Hk in Hi as [t ->]. exists (c :: t). reflexivity.
      - apply many_Some in Hi as (txt & r & -> & _ & _ & Hi).
        apply Hk in Hi as [t ->]. exists (txt ++ t). apply app_assoc. }
    destruct n as [i|i|n| |]; simpl in H.
    + eapply Hitem; [|exact H]. intros txt r. apply IH.
    + eapply Hitem; [|exact H]. intros txt r. apply IH.
    + case_bool_decide; [|discriminate].
      apply IH in H as [t Ht].
      exists (take (length (nth (pred n) caps [])) s ++ t).
      rewrite <- app_assoc, <- Ht. symmetry. apply take_drop.
    + destruct (pos =? 0)%nat; [|discriminate]. eapply IH, H.
    + destruct s; [|discriminate]. eapply IH, H.
Qed.

(** A search fails when the pattern fails at every index, and what it finds
    it finds at some index. *)
Lemma search_None pat pos s :
  (forall a t, s = a ++ t -> run pat (pos + length a) [] t = None) ->
  search pat pos s = None.
Proof.
  revert pos.
  induction s as [|c s IH]; intros pos H.
  - pose proof (H [] [] eq_refl) as H0. simpl in H0. rewrite Nat.add_0_r in H0.
    simpl. unfold match_at. rewrite H0. reflexivity.
  - pose proof (H [] (c :: s) eq_refl) as H0. simpl in H0. rewrite Nat.add_0_r in H0.
    simpl. unfold match_at. rewrite H0.
    apply IH. intros a t ->.
    rewrite Nat.add_succ_comm. apply (H (c :: a) t). reflexivity.
Qed.

Lemma search_Some pat pos s m :
  search pat pos s = Some m ->
  exists a t, s = a ++ t /\ match_at pat (pos + length a) t = Some m.
Proof.
  revert pos.
  induction s as [|c s IH]; intros pos H; simpl in H.
  - destruct (match_at pat pos []) eqn:E; [|discriminate].
    exists [], []. simpl. rewrite Nat.add_0_r. split; congruence.
  - destruct (match_at pat pos (c :: s)) eqn:E.
    + exists [], (c :: s). simpl. rewrite Nat.add_0_r. split; congruence.
    + apply IH in H as (a & t & -> & H).
      exists (c :: a), t. simpl length. rewrite <- Nat.add_succ_comm. auto.
Qed.

(** An anchored pattern can only match at index 0. *)
Lemma search_Bos pat s : search (Bos :: pat) 0 s = match_at (Bos :: pat) 0 s.
Proof.
  assert (H : forall t n, search (Bos :: pat) (S n) t = None).
  { induction t as [|c t IH]; intros n; simpl; auto. }
  destruct s as [|c s]; simpl; destruct (match_at (Bos :: pat) 0 _); auto.
Qed.

(** ** Global matching of a one-character pattern *)

Lemma match_at_one p pos c s :
  match_at [Plain (One p)] pos (c :: s) = if p c then Some [[c]] else None.
Proof.
  unfold match_at. rewrite run_one_cons. destruct (p c); [|reflexivity].
  simpl run. cbv iota beta.
  assert (E : (length (c :: s) - length s = 1)%nat) by (simpl; lia).
  rewrite E. reflexivity.
Qed.

Lemma scan_one p pos s :
  scan [Plain (One p)] 0 pos s = map (fun c => if p c then Hit [[c]] else Kept c) s.
Proof.
  revert pos.
  induction s as [|c s IH]; intros pos.
  - reflexivity.
  - cbn [scan map]. rewrite match_at_one.
    destruct (p c); cbn; rewrite IH; reflexivity.
Qed.

(** Replacing every character of a class by nothing is filtering. *)
Lemma replace_all_one_empty p s :
  replace_all [Plain (One p)] (fun _ => []) s = filter (fun c => p c = false) s.
Proof.
  unfold replace_all. rewrite scan_one.
  induction s as [|c s IH]; [reflexivity|].
  cbn [map concat]. rewrite IH.
  destruct (p c) eqn:Hp.
  - rewrite filter_cons_False by congruence. reflexivity.
  - rewrite filter_cons_True by assumption. reflexivity.
Qed.

(** The matches of a one-character pattern are the characters of the
    class. *)
Lemma match_all_one p s :
  match_all [Plain (One p)] s = map (fun c => [c]) (filter (fun c => p c = true) s).
Proof.
  unfold match_all. rewrite scan_one.
  induction s as [|c s IH]; [reflexivity|].
  cbn [map omap list_omap]. rewrite IH.
  destruct (p c) eqn:Hp.
  - rewrite filter_cons_True by assumption. reflexivity.
  - rewrite filter_cons_False by congruence. reflexivity.
Qed.

(** ** The rating *)

Lemma countStars_filter (description : jsstr) :
  countStars description = length (filter (fun c => c = star_filled) description).
Proof.
  unfold countStars, filledStarRe. rewrite match_all_one, length_map.
  f_equal. apply list_filter_iff. intros c. unfold chr. apply Z.eqb_eq.
Qed.

(** ** The quoted branch of [getReviewContent] *)

(** The anchored quote pattern matches exactly the strings wrapped in two
    double quotes around text without a line terminator, and its group is
    that text. *)
Lemma quoteRe_inv (clean : jsstr) (m : list jsstr) :
  js_match quoteRe clean = Some m ->
  exists inner,
    clean = [dq] ++ inner ++ [dq] /\ forallb dot inner = true /\ m = [clean; inner].
Proof.
  unfold js_match, quoteRe. rewrite search_Bos. unfold match_at.
  destruct (run _ 0 [] clean) as [[caps rest]|] eqn:H; [|discriminate].
  intros [= <-].
  cbn [run Nat.eqb] in H.
  destruct clean as [|c s]; [discriminate|].
  cbn [item_match] in H.
  destruct (chr dq c) eqn:Hc; [|discriminate].
  apply Z.eqb_eq in Hc as ->.
  apply many_Some in H as (txt & r & -> & Hall & _ & H).
  destruct r as [|c r]; [discriminate|].
  destruct (chr dq c) eqn:Hc; [|discriminate].
  apply Z.eqb_eq in Hc as ->.
  destruct r; [|discriminate].
  injection H as <- <-.
  exists txt. rewrite Nat.sub_0_r, firstn_all. auto.
Qed.

Lemma quoteRe_intro (inner : jsstr) :
  forallb dot inner = true ->
  js_match quoteRe ([dq] ++ inner ++ [dq]) =
    Some [[dq] ++ inner ++ [dq]; inner].
Proof.
  intros Hall.
  destruct (js_match quoteRe ([dq] ++ inner ++ [dq])) as [m|] eqn:H.
  - apply quoteRe_inv in H as (inner' & E & _ & ->).
    injection E as E. apply app_inj_tail in E as [<- _]. reflexivity.
  - exfalso. revert H.
    unfold js_match, quoteRe. rewrite search_Bos. unfold match_at.
    cbn [run Nat.eqb app item_match]. unfold chr at 1. rewrite Z.eqb_refl.
    match goal with
    | |- context [many false 0 dot ?k [] (inner ++ [dq])] =>
      destruct (many_is_Some false 0 dot k [] inner [dq] Hall (Nat.le_0_l _))
        as [[caps rest] Hs]
    end.
    { cbn. eexists. reflexivity. }
    rewrite Hs. discriminate.
Qed.


Lemma placeholder_truthy language : truthy (placeholder language) = true.
Proof. unfold placeholder. case_bool_decide; vm_compute; reflexivity. Qed.

(** The working copy: the description without its rating glyphs,
    trimmed. *)
Lemma cleanDescription_filter (description : jsstr) :
  cleanDescription description =
  trim (filter (fun c => ~ rating_glyph c) description).
Proof.
  unfold cleanDescription, anyStarRe. rewrite replace_all_one_empty.
  f_equal. apply list_filter_iff. intros c.
  unfold rating_glyph, oneof. cbn [existsb]. rewrite orb_false_r, orb_false_iff.
  rewrite !Z.eqb_neq. tauto.
Qed.

(** The only way to an empty result is the quoted branch around blank
    text. *)
Lemma getReviewContent_empty_inv (description language : jsstr) :
  getReviewContent description language = [] ->
  exists inner,
    cleanDescription description = [dq] ++ inner ++ [dq] /\ trim inner = [].
Proof.
  unfold getReviewContent.
  destruct (truthy (cleanDescription description)) eqn:Ht; cbn [negb].
  - destruct (js_match quoteRe (cleanDescription description)) as [m|] eqn:Hm.
    + apply quoteRe_inv in Hm as (inner & E & _ & ->).
      intros H. exists inner. auto.
    + intros H. rewrite H in Ht. discriminate.
  - intros H. pose proof (placeholder_truthy language) as Hp.
    rewrite H in Hp. discriminate.
Qed.

(** C1.  The content is not always non-empty: for a description whose text
    is an empty pair of double quotes, [getReviewContent] returns the empty
    string, in every language. *)
Theorem getReviewContent_empty_quotes (language : jsstr) :
  getReviewContent (js "★★★★★ " ++ [dq; dq]) language = [].
Proof. vm_compute. reflexivity. Qed.

(** C3, as the code has it.  The rating is the number of filled stars of
    the description before it is stripped; the empty star does not count.
    It is a natural number, and it is 0 exactly when the description has no
    filled star. *)
Theorem countStars_counts_filled (description : jsstr) :
  countStars description = length (filter (fun c => c = star_filled) description)
  /\ 0 <= Z.of_nat (countStars description)
  /\ (countStars description = 0%nat <-> star_filled ∉ description).
Proof.
  rewrite countStars_filter. split; [reflexivity|]. split; [lia|]. split.
  - intros H%nil_length_inv. eapply filter_nil_not_elem_of; [exact H|reflexivity].
  - intros H. induction description as [|c d IH]; [reflexivity|].
    apply not_elem_of_cons in H as [Hc Hd].
    rewrite filter_cons_False by congruence. auto.
Qed.

(** C3, as the claim has it: counting both glyphs gives 5 for three filled
    and two empty stars, where the code answers 3. *)
Lemma countStars_not_all_glyphs :
  countStars (js "★★★☆☆") <> length (filter rating_glyph (js "★★★☆☆")).
Proof. vm_compute. discriminate. Qed.


Lemma placeholder_sentences_differ :
  js "Es handelt sich um eine Sterne-Bewertung ohne Begründung"
  <> js "This is a star rating without any review text".
Proof. vm_compute. discriminate. Qed.

Lemma getReviewContent_blank (description language : jsstr) :
  cleanDescription description = [] ->
  getReviewContent description language = placeholder language.
Proof. intros H. unfold getReviewContent. rewrite H. reflexivity. Qed.

(** C8.  When nothing is left of the description after the rating glyphs
    are removed and the rest is trimmed, the content is the German sentence
    for the language code de, and only for that code, and the English
    sentence for every other code. *)
Theorem getReviewContent_placeholder (description language : jsstr) :
  trim (filter (fun c => ~ rating_glyph c) description) = [] ->
  (language = js "de" ->
   getReviewContent description language =
     js "Es handelt sich um eine Sterne-Bewertung ohne Begründung")
  /\ (language <> js "de" ->
      getReviewContent description language =
        js "This is a star rating without any review text")
  /\ (getReviewContent description language =
        js "Es handelt sich um eine Sterne-Bewertung ohne Begründung" ->
      language = js "de").
Proof.
  intros H. rewrite <- cleanDescription_filter in H.
  rewrite (getReviewContent_blank _ language H).
  unfold placeholder.
  case_bool_decide as Hl; (split; [|split]); intros Hx.
  - reflexivity.
  - contradiction.
  - exact Hl.
  - contradiction.
  - reflexivity.
  - exfalso. apply placeholder_sentences_differ. symmetry. exact Hx.
Qed.

Lemma getReviewContent_placeholder_witness :
  getReviewContent (js "★★") (js "de") =
    js "Es handelt sich um eine Sterne-Bewertung ohne Begründung"
  /\ countStars (js "★★★") = 3%nat
  /\ getReviewContent (js "★★★") (js "en") =
       js "This is a star rating without any review text".
Proof.
  split; [|split].
  - refine (proj1 (getReviewContent_placeholder (js "★★") (js "de") _) eq_refl).
    vm_compute. reflexivity.
  - vm_compute. reflexivity.
  - refine (proj1 (proj2 (getReviewContent_placeholder (js "★★★") (js "en") _)) _).
    + vm_compute. reflexivity.
    + vm_compute. discriminate.
Defined.

(** ** The page language *)

Lemma occursb_false (needle s : jsstr) :
  occursb needle s = false -> forall a b, s <> a ++ needle ++ b.
Proof.
  induction s as [|c s IH]; intros H a b E.
  - simpl in H. apply orb_false_iff in H as [H _].
    apply bool_decide_eq_false in H. apply H.
    symmetry in E. apply app_eq_nil in E as [_ E].
    apply app_eq_nil in E as [-> _]. reflexivity.
  - cbn [occursb] in H. apply orb_false_iff in H as [H Hs].
    apply bool_decide_eq_false in H.
    destruct a as [|x a].
    + apply H. rewrite E. cbn [app]. apply take_app_length.
    + injection E as _ E. exact (IH Hs a b E).
Qed.

Lemma run_many_Some g lo p pat pos caps s r :
  run (Plain (Many g lo p) :: pat) pos caps s = Some r ->
  exists txt rest,
    s = txt ++ rest /\ forallb p txt = true /\ (lo <= length txt)%nat
    /\ run pat (pos + length txt) caps rest = Some r.
Proof. cbn [run item_match]. intros H. apply many_Some in H. exact H. Qed.

Lemma run_group_many_Some g lo p pat pos caps s r :
  run (Group (Many g lo p) :: pat) pos caps s = Some r ->
  exists txt rest,
    s = txt ++ rest /\ forallb p txt = true /\ (lo <= length txt)%nat
    /\ run pat (pos + length txt) (caps ++ [txt]) rest = Some r.
Proof. cbn [run item_match]. intros H. apply many_Some in H. exact H. Qed.

(** The language pattern matches only where the lower-case text of the tag
    and, after it, the lower-case text of the attribute occur. *)
Lemma langRe_inv (html : jsstr) (m : list jsstr) :
  js_match langRe html = Some m ->
  exists a txt b,
    html = a ++ js "<html" ++ txt ++ (js "lang=" ++ [dq]) ++ b.
Proof.
  unfold js_match. intros (a & t & -> & H)%search_Some.
  unfold match_at in H.
  destruct (run langRe (0 + length a) [] t) as [r|] eqn:Hr; [|discriminate].
  unfold langRe in Hr.
  apply run_lit_Some in Hr as (rest & -> & Hr).
  cbn [app] in Hr.
  apply run_many_Some in Hr as (txt & rest' & -> & _ & _ & Hr).
  apply run_lit_Some in Hr as (b & -> & _).
  exists a, txt, b. reflexivity.
Qed.

(** C10.  The language pattern is case-sensitive: a page in which the
    lower-case text of the html tag, or the lower-case text of the lang
    attribute with its opening double quote, does not occur has no language
    match, and its language is the default en. *)
Theorem pageLang_is_case_sensitive (html : jsstr) :
  occursb (js "<html") html = false \/ occursb (js "lang=" ++ [dq]) html = false ->
  js_match langRe html = None /\ pageLang html = js "en".
Proof.
  intros H.
  assert (Hm : js_match langRe html = None).
  { destruct (js_match langRe html) as [m|] eqn:Hm; [|reflexivity].
    apply langRe_inv in Hm as (a & txt & b & E).
    destruct H as [H|H].
    - exfalso. exact (occursb_false _ _ H a _ E).
    - exfalso. apply (occursb_false _ _ H (a ++ js "<html" ++ txt) b).
      rewrite E, <- !app_assoc. reflexivity. }
  split; [exact Hm|].
  unfold pageLang. rewrite Hm. reflexivity.
Qed.

Lemma pageLang_is_case_sensitive_witness :
  let page :=
    js "<HTML LANG=" ++ [dq] ++ js "de" ++ [dq] ++ js "><HEAD><META content='Cafe Mitte' ITEMPROP="
    ++ [dq] ++ js "NAME" ++ [dq] ++ js "></HEAD></HTML>" in
  pageLang page = js "en" /\ extractMetaContent page (js "name") = js "Cafe Mitte".
Proof.
  split.
  - refine (proj2 (pageLang_is_case_sensitive _ _)).
    left. vm_compute. reflexivity.
  - vm_compute. reflexivity.
Defined.

(** ** [trim] and the title parser *)


Lemma trimStart_fixed (c : Z) (s : jsstr) :
  space c = false -> trimStart (c :: s) = c :: s.
Proof. intros Hc. cbn [trimStart]. rewrite Hc. reflexivity. Qed.






(** ** The entity decoder on the examples of the specification *)

(** C5.  One pass only: the text that a replacement puts in is not looked
    at again, so a doubly escaped ampersand loses one level, and a second
    call is what removes the other. *)
Theorem decodeHTMLEntities_single_pass :
  decodeHTMLEntities (js "&amp;amp;") = js "&amp;"
  /\ decodeHTMLEntities (js "&amp;amp;") <> js "&"
  /\ decodeHTMLEntities (decodeHTMLEntities (js "&amp;amp;")) = js "&".
Proof.
  split; [|split].
  - vm_compute. reflexivity.
  - vm_compute. discriminate.
  - vm_compute. reflexivity.
Qed.

(** C6.  A decimal reference above U+FFFF is not decoded to its character:
    [String.fromCharCode] keeps the low 16 bits of the number, so the
    reference of U+1F600 gives the one unit U+F600 where the character is
    the surrogate pair D83D DE00.  The reference of U+0041 gives A. *)
Theorem decodeHTMLEntities_astral_reference :
  decodeHTMLEntities (js "&#128512;") = [0xF600]
  /\ fromCodePoint 128512 = [0xD83D; 0xDE00]
  /\ decodeHTMLEntities (js "&#128512;") <> fromCodePoint 128512
  /\ decodeHTMLEntities (js "&#65;") = js "A".
Proof.
  split; [|split; [|split]].
  - vm_compute. reflexivity.
  - vm_compute. reflexivity.
  - vm_compute. discriminate.
  - vm_compute. reflexivity.
Qed.

(** ** The two variants of the content normalization *)

(** C9.  The two variants disagree on a description with double quotes
    inside its text: the current one returns the text as it is, the older
    one finds no quoted text after the stars and returns the empty
    string. *)
Theorem variants_differ_on_inner_quotes :
  exists description : jsstr,
    description = js "★★★★ Said " ++ [dq] ++ js "hi" ++ [dq] ++ js " and left"
    /\ dq ∈ description
    /\ decodeHTMLEntities description = description
    /\ forall language,
         getReviewContent (decodeHTMLEntities description) language
           = js "Said " ++ [dq] ++ js "hi" ++ [dq] ++ js " and left"
         /\ Variant2.reviewContent description = []
         /\ getReviewContent (decodeHTMLEntities description) language
              <> Variant2.reviewContent description.
Proof.
  eexists. split; [reflexivity|]. split; [|split].
  - vm_compute. repeat constructor.
  - vm_compute. reflexivity.
  - intros language. split; [|split].
    + vm_compute. reflexivity.
    + vm_compute. reflexivity.
    + vm_compute. discriminate.
Qed.

(** ** The handler *)

(** C2, as the claim has it: a fetch that resolves with status 404 is
    answered with 200 and success true, not with 500. *)
Lemma not_found_page_is_a_success :
  let r :=
    googleReviewScraper
      (fun _ _ => FetchResolved 404 (BodyText (js "<html><body>Not Found</body></html>")))
      0 {| method := js "GET"; query_url := Some (js "https://example.com/review") |} in
  Reply.status r = 200 /\ Reply.success r = Some true /\ Reply.status r <> 500.
Proof. vm_compute. repeat split; discriminate. Qed.

(** C2, as the code has it.  A fetch that rejects, or whose body cannot be
    read, is answered with 500, success false and the message of the error
    in the details.  A fetch that resolves with a page is answered with 200
    and success true whatever its status code, which is passed on in the
    debug information. *)
Theorem googleReviewScraper_fetch_outcomes
    (fetch : jsstr -> list (jsstr * jsstr) -> fetch_outcome) (pick : nat)
    (req : request) (url : jsstr) :
  method req <> js "OPTIONS" ->
  query_url req = Some url ->
  url <> [] ->
  (forall message,
     fetch url (fetch_headers pick) = FetchRejected message ->
     Reply.status (googleReviewScraper fetch pick req) = 500
     /\ Reply.success (googleReviewScraper fetch pick req) = Some false
     /\ Reply.details (googleReviewScraper fetch pick req) = Some message)
  /\ (forall status message,
        fetch url (fetch_headers pick) = FetchResolved status (BodyRejected message) ->
        Reply.status (googleReviewScraper fetch pick req) = 500
        /\ Reply.success (googleReviewScraper fetch pick req) = Some false
        /\ Reply.details (googleReviewScraper fetch pick req) = Some message)
  /\ (forall status html,
        fetch url (fetch_headers pick) = FetchResolved status (BodyText html) ->
        Reply.status (googleReviewScraper fetch pick req) = 200
        /\ Reply.success (googleReviewScraper fetch pick req) = Some true
        /\ exists d debug,
             Reply.payload (googleReviewScraper fetch pick req) = Reply.Success d debug
             /\ Reply.statusCode debug = status).
Proof.
  intros Hm Hq Hu.
  assert (E : googleReviewScraper fetch pick req =
              match fetch url (fetch_headers pick) with
              | FetchRejected message => failure message
              | FetchResolved status (BodyRejected message) => failure message
              | FetchResolved status (BodyText html) => scrape url status html
              end).
  { unfold googleReviewScraper. rewrite bool_decide_eq_false_2 by exact Hm.
    rewrite Hq. destruct url; [contradiction|]. reflexivity. }
  rewrite E. split; [|split].
  - intros message ->. repeat split.
  - intros status message ->. repeat split.
  - intros status html ->. split; [reflexivity|]. split; [reflexivity|].
    eexists _, _. split; reflexivity.
Qed.

Lemma googleReviewScraper_fetch_outcomes_witness :
  let req := {| method := js "GET"; query_url := Some (js "https://example.com/r") |} in
  Reply.details
    (googleReviewScraper (fun _ _ => FetchRejected (js "socket hang up")) 0 req)
    = Some (js "socket hang up")
  /\ Reply.status
       (googleReviewScraper (fun _ _ => FetchResolved 503 (BodyText [])) 0 req) = 200.
Proof.
  split.
  - refine (proj2 (proj2 (proj1
      (googleReviewScraper_fetch_outcomes
         (fun _ _ => FetchRejected (js "socket hang up")) 0
         {| method := js "GET"; query_url := Some (js "https://example.com/r") |}
         (js "https://example.com/r")
         _ eq_refl _) _ eq_refl))).
    + vm_compute. discriminate.
    + vm_compute. discriminate.
  - refine (proj1 (proj2 (proj2
      (googleReviewScraper_fetch_outcomes
         (fun _ _ => FetchResolved 503 (BodyText [])) 0
         {| method := js "GET"; query_url := Some (js "https://example.com/r") |}
         (js "https://example.com/r")
         _ eq_refl _)) 503 [] eq_refl)).
    + vm_compute. discriminate.
    + vm_compute. discriminate.
Defined.

(** ** More on the matcher: which cut a repetition takes *)

(** The longest run of a class at the start of a string is unique. *)
Lemma span_unique (p : Z -> bool) (a1 b1 a2 b2 : jsstr) :
  forallb p a1 = true -> forallb p a2 = true ->
  a1 ++ b1 = a2 ++ b2 ->
  (forall c t, b1 = c :: t -> p c = false) ->
  (forall c t, b2 = c :: t -> p c = false) ->
  a1 = a2 /\ b1 = b2.
Proof.
  revert a2.
  induction a1 as [|x a1 IH]; intros a2 H1 H2 E Hb1 Hb2.
  - destruct a2 as [|y a2]; [auto|].
    exfalso. cbn [app] in E. cbn [forallb] in H2.
    apply andb_true_iff in H2 as [Hy _].
    rewrite (Hb1 _ _ E) in Hy. discriminate.
  - cbn [forallb] in H1. apply andb_true_iff in H1 as [Hx H1].
    destruct a2 as [|y a2].
    + exfalso. cbn [app] in E. symmetry in E.
      rewrite (Hb2 _ _ E) in Hx. discriminate.
    + cbn [forallb] in H2. apply andb_true_iff in H2 as [_ H2].
      injection E as -> E.
      destruct (IH a2 H1 H2 E Hb1 Hb2) as [-> ->]. auto.
Qed.

Section ManyChoice.
Context {R : Type}.
Implicit Types (k : jsstr -> jsstr -> option R) (p : Z -> bool).

(** A greedy repetition takes the whole run when the rest of the pattern
    accepts what follows it. *)
Lemma many_greedy_longest lo p k acc txt rest r :
  forallb p txt = true ->
  (forall c t, rest = c :: t -> p c = false) ->
  (lo <= length txt)%nat ->
  k (acc ++ txt) rest = Some r ->
  many true lo p k acc (txt ++ rest) = Some r.
Proof.
  revert lo acc.
  induction txt as [|c txt IH]; intros lo acc Hall Hrest Hlo Hk.
  - rewrite (app_nil_r acc) in Hk. rewrite app_nil_l.
    cbn [length] in Hlo. assert (lo = 0%nat) as -> by lia.
    destruct rest as [|c t].
    + rewrite many_nil. exact Hk.
    + rewrite many_cons_greedy, (Hrest c t eq_refl). exact Hk.
  - cbn [forallb] in Hall. apply andb_true_iff in Hall as [Hc Hall].
    rewrite <- app_comm_cons, many_cons_greedy, Hc.
    rewrite (IH (pred lo) (acc ++ [c])); auto.
    + cbn [length] in Hlo. lia.
    + rewrite <- app_assoc. exact Hk.
Qed.

(** A lazy repetition stops at the first cut that the rest of the pattern
    accepts. *)
Lemma many_lazy_first p k acc txt rest r :
  forallb p txt = true ->
  (forall t1 t2, txt = t1 ++ t2 -> t2 <> [] -> k (acc ++ t1) (t2 ++ rest) = None) ->
  k (acc ++ txt) rest = Some r ->
  many false 0 p k acc (txt ++ rest) = Some r.
Proof.
  revert acc.
  induction txt as [|c txt IH]; intros acc Hall Hnone Hk.
  - rewrite (app_nil_r acc) in Hk. rewrite app_nil_l.
    destruct rest as [|c t].
    + rewrite many_nil. exact Hk.
    + rewrite many_cons_lazy, Hk. reflexivity.
  - cbn [forallb] in Hall. apply andb_true_iff in Hall as [Hc Hall].
    rewrite <- app_comm_cons, many_cons_lazy.
    pose proof (Hnone [] (c :: txt) eq_refl ltac:(discriminate)) as H0.
    rewrite (app_nil_r acc) in H0. cbn [app] in H0. rewrite H0, Hc.
    apply IH; auto.
    + intros t1 t2 -> Ht2. rewrite <- app_assoc.
      apply (Hnone (c :: t1) t2); auto.
    + rewrite <- app_assoc. exact Hk.
Qed.

Lemma many_ext g lo p k k' acc s :
  (forall txt rest, k txt rest = k' txt rest) ->
  many g lo p k acc s = many g lo p k' acc s.
Proof.
  intros Hk. revert lo acc.
  induction s as [|c s IH]; intros lo acc.
  - rewrite !many_nil. destruct lo; auto.
  - destruct g.
    + rewrite !many_cons_greedy, IH, Hk. reflexivity.
    + rewrite !many_cons_lazy, IH, Hk. reflexivity.
Qed.
End ManyChoice.

(** Only [^] looks at the index: a pattern without it matches the same way
    wherever the subject starts. *)
Lemma run_pos (pat : regex) :
  Bos ∉ pat ->
  forall pos pos' caps s, run pat pos caps s = run pat pos' caps s.
Proof.
  induction pat as [|n pat IH]; intros Hb pos pos' caps s; [reflexivity|].
  apply not_elem_of_cons in Hb as [Hn Hb].
  specialize (IH Hb).
  destruct n as [i|i|n| |]; cbn [run].
  - destruct i as [p|g lo p]; cbn [item_match].
    + destruct s as [|c s]; [reflexivity|]. destruct (p c); auto.
    + apply many_ext. intros txt rest. apply IH.
  - destruct i as [p|g lo p]; cbn [item_match].
    + destruct s as [|c s]; [reflexivity|]. destruct (p c); auto.
    + apply many_ext. intros txt rest. apply IH.
  - case_bool_decide; auto.
  - contradiction.
  - destruct s; auto.
Qed.

Lemma take_matched (x rest : jsstr) :
  take (length (x ++ rest) - length rest) (x ++ rest) = x.
Proof.
  rewrite length_app, Nat.add_sub. apply take_app_length.
Qed.

(** A search returns the match at the first index where there is one. *)
Lemma search_first pat pos a t m :
  (forall a1 a2, a = a1 ++ a2 -> a2 <> [] ->
     match_at pat (pos + length a1) (a2 ++ t) = None) ->
  match_at pat (pos + length a) t = Some m ->
  search pat pos (a ++ t) = Some m.
Proof.
  revert pos.
  induction a as [|c a IH]; intros pos Hnone Hm.
  - cbn [length] in Hm. rewrite Nat.add_0_r in Hm. rewrite app_nil_l.
    destruct t; cbn [search]; rewrite Hm; reflexivity.
  - pose proof (Hnone [] (c :: a) eq_refl ltac:(discriminate)) as H0.
    cbn [length] in H0. rewrite Nat.add_0_r in H0.
    rewrite <- app_comm_cons. cbn [search]. rewrite app_comm_cons, H0.
    apply IH.
    + intros a1 a2 -> Ha2. rewrite Nat.add_succ_comm.
      apply (Hnone (c :: a1) a2); auto.
    + cbn [length] in Hm. rewrite Nat.add_succ_comm. exact Hm.
Qed.

(** ** More on global matching *)

Lemma scan_skip pat pos (x rest : jsstr) :
  scan pat (length x) pos (x ++ rest) = scan pat 0 (pos + length x) rest.
Proof.
  revert pos.
  induction x as [|c x IH]; intros pos.
  - cbn [length app]. rewrite Nat.add_0_r. reflexivity.
  - cbn [length app scan]. rewrite IH, Nat.add_succ_comm. reflexivity.
Qed.

Lemma scan_miss pat pos c (s : jsstr) :
  match_at pat pos (c :: s) = None ->
  scan pat 0 pos (c :: s) = Kept c :: scan pat 0 (S pos) s.
Proof. intros H. cbn [scan]. rewrite H. reflexivity. Qed.

Lemma scan_hit pat pos (x rest : jsstr) m :
  x <> [] ->
  match_at pat pos (x ++ rest) = Some m ->
  grp m 0 = x ->
  scan pat 0 pos (x ++ rest) = Hit m :: scan pat 0 (pos + length x) rest.
Proof.
  intros Hx Hm Hg.
  destruct x as [|c x]; [contradiction|].
  rewrite <- app_comm_cons. cbn [scan]. rewrite app_comm_cons, Hm, Hg.
  cbn [length]. rewrite scan_skip, Nat.add_succ_comm.
  reflexivity.
Qed.

Lemma scan_pos pat :
  Bos ∉ pat -> forall pos pos' skip s, scan pat skip pos s = scan pat skip pos' s.
Proof.
  intros Hb pos pos' skip s. revert pos pos' skip.
  induction s as [|c s IH]; intros pos pos' skip.
  - destruct skip; cbn [scan]; [|reflexivity].
    unfold match_at. rewrite (run_pos pat Hb pos pos'). reflexivity.
  - destruct skip as [|k]; cbn [scan].
    + unfold match_at. rewrite (run_pos pat Hb pos pos').
      destruct (run pat pos' [] (c :: s)) as [[caps rest]|].
      * destruct (length (grp _ 0)); rewrite (IH (S pos) (S pos')); reflexivity.
      * rewrite (IH (S pos) (S pos')). reflexivity.
    + apply IH.
Qed.

(** ** The entity decoder in general *)

Lemma decodeHTMLEntities_replace (text : jsstr) :
  decodeHTMLEntities text =
  replace_all entityRe (fun m => decode_entity (grp m 0)) text.
Proof. destruct text; reflexivity. Qed.

Lemma entityRe_no_Bos : Bos ∉ entityRe.
Proof.
  unfold entityRe. intros H.
  repeat (apply elem_of_cons in H as [H|H]; [discriminate|]).
  inversion H.
Qed.

(** The entity pattern needs an ampersand where it starts and a semicolon
    further on. *)
Lemma entityRe_miss_char pos c (s : jsstr) :
  c <> 38 -> match_at entityRe pos (c :: s) = None.
Proof.
  intros Hc. unfold match_at, entityRe. rewrite run_one_cons.
  unfold chr. apply Z.eqb_neq in Hc. rewrite Hc. reflexivity.
Qed.

Lemma entityRe_miss_semicolon pos (s : jsstr) :
  59 ∉ s -> match_at entityRe pos s = None.
Proof.
  intros Hs. unfold match_at.
  destruct (run entityRe pos [] s) as [[caps rest]|] eqn:H; [|reflexivity].
  exfalso. unfold entityRe in H.
  apply run_one_Some in H as (c & s1 & -> & _ & H).
  apply run_many_Some in H as (txt & s2 & -> & _ & _ & H).
  apply run_one_Some in H as (c' & s3 & -> & Hc' & _).
  apply Z.eqb_eq in Hc' as ->.
  apply Hs. apply elem_of_cons. right. apply elem_of_app. right. left.
Qed.

(** It matches from an ampersand to the first semicolon after it, when
    there is something between the two. *)
Lemma entityRe_hit pos (body rest : jsstr) :
  body <> [] -> forallb (not_chr 59) body = true ->
  match_at entityRe pos ((38 :: body ++ [59]) ++ rest) = Some [38 :: body ++ [59]].
Proof.
  intros Hb Hall. unfold match_at, entityRe.
  rewrite <- app_comm_cons, <- app_assoc. cbn [app].
  rewrite run_one_cons. cbn [chr Z.eqb Pos.eqb run item_match].
  rewrite (many_greedy_longest 1 (not_chr 59) _ [] body (59 :: rest) ([], rest)).
  - pose proof (take_matched (38 :: body ++ [59]) rest) as Ht.
    rewrite <- app_comm_cons, <- app_assoc in Ht. cbn [app] in Ht.
    rewrite Ht. reflexivity.
  - exact Hall.
  - intros c t [= <- _]. reflexivity.
  - destruct body; [contradiction|]. cbn [length]. lia.
  - reflexivity.
Qed.

Lemma scan_entityRe_plain pos (pre rest : jsstr) :
  38 ∉ pre ->
  scan entityRe 0 pos (pre ++ rest) = map Kept pre ++ scan entityRe 0 (pos + length pre) rest.
Proof.
  revert pos.
  induction pre as [|c pre IH]; intros pos Hpre.
  - cbn [app map length]. rewrite Nat.add_0_r. reflexivity.
  - apply not_elem_of_cons in Hpre as [Hc Hpre].
    rewrite <- app_comm_cons, scan_miss by (apply entityRe_miss_char; congruence).
    rewrite IH by exact Hpre. cbn [map app length].
    rewrite Nat.add_succ_comm. reflexivity.
Qed.

Lemma replace_all_entityRe_Kept (f : list jsstr -> jsstr) (pre : jsstr) (ps : list piece) :
  concat (map (fun p => match p with Kept c => [c] | Hit m => f m end)
              (map Kept pre ++ ps))
  = pre ++ concat (map (fun p => match p with Kept c => [c] | Hit m => f m end) ps).
Proof. induction pre as [|c pre IH]; [reflexivity|]. cbn. rewrite IH. reflexivity. Qed.

Lemma decode_plain_prefix (pre rest : jsstr) :
  38 ∉ pre ->
  decodeHTMLEntities (pre ++ rest) = pre ++ decodeHTMLEntities rest.
Proof.
  intros Hpre. rewrite !decodeHTMLEntities_replace. unfold replace_all.
  rewrite scan_entityRe_plain by exact Hpre.
  rewrite replace_all_entityRe_Kept.
  rewrite (scan_pos entityRe entityRe_no_Bos (0 + length pre) 0). reflexivity.
Qed.

Lemma decode_no_ampersand (text : jsstr) :
  38 ∉ text -> decodeHTMLEntities text = text.
Proof.
  intros H. rewrite <- (app_nil_r text) at 1.
  rewrite decode_plain_prefix by exact H. apply app_nil_r.
Qed.

(** Text without an ampersand is copied, and decoding goes on behind it. *)
Theorem decodeHTMLEntities_plain_prefix (pre rest : jsstr) :
  38 ∉ pre ->
  decodeHTMLEntities (pre ++ rest) = pre ++ decodeHTMLEntities rest.
Proof. intros H. apply decode_plain_prefix, H. Qed.

Lemma decodeHTMLEntities_plain_prefix_witness :
  decodeHTMLEntities (js "Tom " ++ js "&amp; Jerry") = js "Tom " ++ decodeHTMLEntities (js "&amp; Jerry").
Proof.
  apply (decodeHTMLEntities_plain_prefix (js "Tom ") (js "&amp; Jerry")).
  vm_compute. intros H. repeat (apply elem_of_cons in H as [H|H]; [discriminate|]).
  inversion H.
Defined.

Lemma decode_reference_prefix (body rest : jsstr) :
  body <> [] -> forallb (not_chr 59) body = true ->
  decodeHTMLEntities ((38 :: body ++ [59]) ++ rest)
  = decode_entity (38 :: body ++ [59]) ++ decodeHTMLEntities rest.
Proof.
  intros Hb Hall. rewrite !decodeHTMLEntities_replace. unfold replace_all.
  rewrite (scan_hit entityRe 0 (38 :: body ++ [59]) rest [38 :: body ++ [59]]).
  - cbn [map concat grp nth]. f_equal. f_equal. f_equal.
    apply (scan_pos entityRe entityRe_no_Bos).
  - discriminate.
  - apply entityRe_hit; assumption.
  - reflexivity.
Qed.

(** A reference is replaced as a whole, by what the replacer makes of it,
    and decoding goes on behind it: the replacement is not read again. *)
Theorem decodeHTMLEntities_reference_prefix (body rest : jsstr) :
  body <> [] -> forallb (not_chr 59) body = true ->
  decodeHTMLEntities ((38 :: body ++ [59]) ++ rest)
  = decode_entity (38 :: body ++ [59]) ++ decodeHTMLEntities rest.
Proof. intros Hb Hall. apply decode_reference_prefix; assumption. Qed.

Lemma decodeHTMLEntities_reference_prefix_witness :
  decodeHTMLEntities ((38 :: js "amp" ++ [59]) ++ js "amp;")
  = decode_entity (38 :: js "amp" ++ [59]) ++ decodeHTMLEntities (js "amp;").
Proof.
  apply (decodeHTMLEntities_reference_prefix (js "amp") (js "amp;")).
  - vm_compute. discriminate.
  - vm_compute. reflexivity.
Defined.

Lemma scan_entityRe_no_semicolon pos (text : jsstr) :
  59 ∉ text -> scan entityRe 0 pos text = map Kept text.
Proof.
  revert pos.
  induction text as [|c text IH]; intros pos H.
  - cbn [scan]. rewrite entityRe_miss_semicolon by exact H. reflexivity.
  - rewrite scan_miss by (apply entityRe_miss_semicolon; exact H).
    apply not_elem_of_cons in H as [_ H]. rewrite IH by exact H. reflexivity.
Qed.

(** Text without an ampersand, or without a semicolon, comes back
    unchanged. *)
Theorem decodeHTMLEntities_no_reference (text : jsstr) :
  38 ∉ text \/ 59 ∉ text -> decodeHTMLEntities text = text.
Proof.
  intros [H|H].
  - apply decode_no_ampersand, H.
  - rewrite decodeHTMLEntities_replace. unfold replace_all.
    rewrite scan_entityRe_no_semicolon by exact H.
    rewrite <- (app_nil_r (map Kept text)), replace_all_entityRe_Kept.
    apply app_nil_r.
Qed.

Lemma decodeHTMLEntities_no_reference_witness :
  decodeHTMLEntities (js "Fish & Chips") = js "Fish & Chips".
Proof.
  apply (decodeHTMLEntities_no_reference (js "Fish & Chips")).
  right. vm_compute. intros H.
  repeat (apply elem_of_cons in H as [H|H]; [discriminate|]).
  inversion H.
Defined.

(** ** The table of named references and the numeric references *)

Lemma js_amp_hash : js "&#" = [38; 35].
Proof. vm_compute. reflexivity. Qed.

Lemma js_semicolon : js ";" = [59].
Proof. vm_compute. reflexivity. Qed.

(** Every key of the table is an ampersand, a body without ampersand or
    semicolon, and a semicolon; no value is empty. *)
Lemma entities_shape (e v : jsstr) :
  entities !! e = Some v ->
  e = 38 :: removelast (tl e) ++ [59]
  /\ removelast (tl e) <> []
  /\ forallb (not_chr 59) (removelast (tl e)) = true
  /\ forallb (not_chr 38) (removelast (tl e)) = true
  /\ truthy v = true.
Proof.
  intros H. unfold entities in H. apply elem_of_list_to_map_2 in H.
  repeat (apply elem_of_cons in H as [H|H];
          [injection H as -> ->; vm_compute; repeat split; discriminate|]).
  inversion H.
Qed.

(** The only key that is a decimal reference is the one of the apostrophe,
    and its value is the character of that number. *)
Lemma entities_decimal (ds v : jsstr) :
  forallb digit ds = true ->
  entities !! (38 :: 35 :: ds ++ [59]) = Some v ->
  v = [digits_value ds mod 2 ^ 16].
Proof.
  intros Hd H. unfold entities in H. apply elem_of_list_to_map_2 in H.
  remember (38 :: 35 :: ds ++ [59]) as e eqn:E.
  vm_compute in H.
  assert (Hx : forall a b c : Z, ds ++ [59] = [120; a; b; c] -> False).
  { intros a b c E'. change [120; a; b; c] with ([120; a; b] ++ [c]) in E'.
    apply app_inj_tail in E' as [-> _]. discriminate Hd. }
  repeat (apply elem_of_cons in H as [H|H];
          [injection H as -> ->; try discriminate E; injection E as E;
           first [ exfalso; symmetry in E; exact (Hx _ _ _ E)
                 | change [51; 57; 59] with ([51; 57] ++ [59]) in E;
                   apply app_inj_tail in E as [<- _]; vm_compute; reflexivity ]|]).
  inversion H.
Qed.

(** The pattern of the decimal reference finds it behind any text without a
    semicolon, and its group is the digits. *)
Lemma numericRe_hit (pre ds : jsstr) :
  59 ∉ pre -> ds <> [] -> forallb digit ds = true ->
  js_match numericRe (pre ++ 38 :: 35 :: ds ++ [59])
  = Some [38 :: 35 :: ds ++ [59]; ds].
Proof.
  intros Hpre Hne Hd. unfold js_match.
  apply search_first.
  - intros a1 a2 -> Ha2. unfold match_at.
    destruct (run numericRe _ [] _) as [[caps rest]|] eqn:H; [|reflexivity].
    exfalso. unfold numericRe in H. rewrite js_amp_hash, js_semicolon in H.
    apply run_lit_Some in H as (r1 & E & H).
    apply run_group_many_Some in H as (digs & r2 & -> & Hdigs & _ & H).
    apply (run_lit_Some [59] []) in H as (r3 & -> & _).
    destruct a2 as [|c a2]; [contradiction|].
    injection E as -> E.
    assert (H59 : 59 ∉ a2).
    { intros Hin. apply Hpre. apply elem_of_app. right. right. exact Hin. }
    clear Hpre Ha2 a1.
    destruct a2 as [|c a2]; [discriminate|].
    injection E as -> E.
    apply not_elem_of_cons in H59 as [_ H59].
    revert a2 E H59.
    induction digs as [|d digs IH]; intros a2 E H59.
    + destruct a2 as [|c a2]; [discriminate|].
      injection E as -> _. apply H59. left.
    + cbn [forallb] in Hdigs. apply andb_true_iff in Hdigs as [Hd1 Hdigs].
      destruct a2 as [|c a2].
      * injection E as <- _. discriminate Hd1.
      * injection E as _ E. apply not_elem_of_cons in H59 as [_ H59].
        exact (IH Hdigs a2 E H59).
  - unfold match_at, numericRe. rewrite js_amp_hash, js_semicolon.
    change (38 :: 35 :: ds ++ [59]) with ([38; 35] ++ ds ++ [59]) at 1.
    rewrite run_lit_app. cbn [app run item_match].
    rewrite (many_greedy_longest 1 digit _ [] ds [59] ([ds], [])).
    + f_equal. f_equal. rewrite Nat.sub_0_r. exact (firstn_all _).
    + exact Hd.
    + intros c t [= <- _]. reflexivity.
    + destruct ds; [contradiction|]. cbn [length]. lia.
    + reflexivity.
Qed.

Lemma fromCharCode_small (ds : jsstr) :
  digits_value ds < 2 ^ 53 ->
  fromCharCode ds = [digits_value ds mod 2 ^ 16].
Proof.
  intros H. unfold fromCharCode, nearest_double.
  apply Z.ltb_lt in H. rewrite H. reflexivity.
Qed.

Lemma digit_not_semicolon (ds : jsstr) :
  forallb digit ds = true -> forallb (not_chr 59) ds = true.
Proof.
  induction ds as [|d ds IH]; [reflexivity|].
  cbn [forallb]. intros [Hd Hds]%andb_true_iff. rewrite (IH Hds), andb_true_r.
  unfold digit in Hd. unfold not_chr.
  apply andb_true_iff in Hd as [_ Hd]. apply Z.leb_le in Hd.
  apply negb_true_iff, Z.eqb_neq. lia.
Qed.

Lemma not_chr_forallb (c : Z) (s : jsstr) :
  c ∉ s -> forallb (not_chr c) s = true.
Proof.
  induction s as [|x s IH]; [reflexivity|].
  intros [Hx Hs]%not_elem_of_cons. cbn [forallb]. rewrite (IH Hs), andb_true_r.
  unfold not_chr. apply negb_true_iff, Z.eqb_neq. congruence.
Qed.

Lemma forallb_not_chr (c : Z) (s : jsstr) :
  forallb (not_chr c) s = true -> c ∉ s.
Proof.
  induction s as [|x s IH]; [intros _ H; inversion H|].
  cbn [forallb]. intros [Hx Hs]%andb_true_iff.
  apply not_elem_of_cons. split; [|exact (IH Hs)].
  unfold not_chr in Hx. apply negb_true_iff, Z.eqb_neq in Hx. congruence.
Qed.

(** A reference with an ampersand inside is no key of the table. *)
Lemma entities_two_ampersands (x y : jsstr) :
  entities !! (38 :: (x ++ 38 :: y) ++ [59]) = None.
Proof.
  destruct (entities !! _) as [v|] eqn:H; [|reflexivity].
  apply entities_shape in H as (_ & _ & _ & H & _).
  cbn [tl] in H. rewrite removelast_last in H.
  apply forallb_not_chr in H. exfalso. apply H.
  apply elem_of_app. right. left.
Qed.

(** A named reference of the table is replaced by its value wherever the
    scan reaches it, and decoding goes on behind it. *)
Theorem decodeHTMLEntities_named (e v rest : jsstr) :
  entities !! e = Some v ->
  decodeHTMLEntities (e ++ rest) = v ++ decodeHTMLEntities rest.
Proof.
  intros H. pose proof (entities_shape e v H) as (E & Hne & H59 & _ & Hv).
  rewrite E at 1. rewrite decode_reference_prefix by assumption.
  rewrite <- E. unfold decode_entity. rewrite H, Hv. reflexivity.
Qed.

Lemma decodeHTMLEntities_named_witness :
  decodeHTMLEntities (js "&quot;" ++ js "Great service!&quot;")
  = [dq] ++ decodeHTMLEntities (js "Great service!&quot;").
Proof.
  apply (decodeHTMLEntities_named (js "&quot;") [dq] (js "Great service!&quot;")).
  vm_compute. reflexivity.
Defined.

(** A decimal reference below 2^53 is replaced by the one code unit that is
    its number modulo 2^16: the character itself up to U+FFFF, another one
    above. *)
Theorem decodeHTMLEntities_decimal (ds rest : jsstr) :
  ds <> [] -> forallb digit ds = true -> digits_value ds < 2 ^ 53 ->
  decodeHTMLEntities (js "&#" ++ ds ++ js ";" ++ rest)
  = [digits_value ds mod 2 ^ 16] ++ decodeHTMLEntities rest.
Proof.
  intros Hne Hd Hv. rewrite js_amp_hash, js_semicolon.
  change ([38; 35] ++ ds ++ [59] ++ rest) with (38 :: (35 :: ds) ++ [59] ++ rest).
  rewrite (app_assoc (35 :: ds) [59] rest), app_comm_cons.
  rewrite decode_reference_prefix.
  - f_equal. unfold decode_entity. cbn [app].
    pose proof (numericRe_hit [] ds ltac:(inversion 1) Hne Hd) as Hm.
    cbn [app] in Hm. rewrite Hm. cbn [grp nth].
    destruct (entities !! _) as [v|] eqn:Hl.
    + apply (entities_decimal ds v Hd) in Hl as ->. cbn [truthy]. reflexivity.
    + apply fromCharCode_small, Hv.
  - discriminate.
  - cbn [forallb]. rewrite digit_not_semicolon by exact Hd. reflexivity.
Qed.

Lemma decodeHTMLEntities_decimal_witness :
  decodeHTMLEntities (js "&#" ++ js "8364" ++ js ";" ++ js " 12") = [0x20AC] ++ js " 12"
  /\ decodeHTMLEntities (js "&#" ++ js "128512" ++ js ";" ++ []) = [0xF600] ++ [].
Proof.
  split.
  - refine (eq_trans (decodeHTMLEntities_decimal (js "8364") (js " 12") _ _ _) _).
    + vm_compute. discriminate.
    + vm_compute. reflexivity.
    + vm_compute. reflexivity.
    + vm_compute. reflexivity.
  - refine (eq_trans (decodeHTMLEntities_decimal (js "128512") [] _ _ _) _).
    + vm_compute. discriminate.
    + vm_compute. reflexivity.
    + vm_compute. reflexivity.
    + vm_compute. reflexivity.
Defined.

(** An ampersand that starts no reference takes the text up to the next
    semicolon with it: when that text ends with a decimal reference, the
    whole of it is replaced by the character of the reference. *)
Theorem decodeHTMLEntities_stray_ampersand_decimal (x ds rest : jsstr) :
  59 ∉ x -> ds <> [] -> forallb digit ds = true -> digits_value ds < 2 ^ 53 ->
  decodeHTMLEntities (js "&" ++ x ++ js "&#" ++ ds ++ js ";" ++ rest)
  = [digits_value ds mod 2 ^ 16] ++ decodeHTMLEntities rest.
Proof.
  intros Hx Hne Hd Hv. rewrite js_amp_hash, js_semicolon.
  replace (js "&" ++ x ++ [38; 35] ++ ds ++ [59] ++ rest)
    with ((38 :: (x ++ 38 :: 35 :: ds) ++ [59]) ++ rest).
  2:{ change (js "&") with [38]. cbn [app]. f_equal.
      rewrite <- !app_assoc. reflexivity. }
  rewrite decode_reference_prefix.
  - f_equal. unfold decode_entity. rewrite entities_two_ampersands.
    replace (38 :: (x ++ 38 :: 35 :: ds) ++ [59])
      with ((38 :: x) ++ 38 :: 35 :: ds ++ [59])
      by (cbn [app]; rewrite <- app_assoc; reflexivity).
    rewrite numericRe_hit; auto.
    + cbn [grp nth]. apply fromCharCode_small, Hv.
    + apply not_elem_of_cons. split; [discriminate|exact Hx].
  - destruct x; discriminate.
  - rewrite forallb_app. rewrite not_chr_forallb by exact Hx.
    cbn [forallb andb]. rewrite digit_not_semicolon by exact Hd. reflexivity.
Qed.

Lemma decodeHTMLEntities_stray_ampersand_decimal_witness :
  decodeHTMLEntities (js "&" ++ js "T Mobile " ++ js "&#" ++ js "38" ++ js ";" ++ js " Co")
  = js "& Co".
Proof.
  refine (eq_trans (decodeHTMLEntities_stray_ampersand_decimal
                      (js "T Mobile ") (js "38") (js " Co") _ _ _ _) _).
  - vm_compute. intros H.
    repeat (apply elem_of_cons in H as [H|H]; [discriminate|]). inversion H.
  - vm_compute. discriminate.
  - vm_compute. reflexivity.
  - vm_compute. reflexivity.
  - vm_compute. reflexivity.
Defined.

(** What the decimal pattern finds is a number sign, digits and a
    semicolon behind an ampersand. *)
Lemma numericRe_inv (s : jsstr) (m : list jsstr) :
  js_match numericRe s = Some m ->
  exists a digs r,
    s = a ++ [38; 35] ++ digs ++ [59] ++ r /\ forallb digit digs = true.
Proof.
  unfold js_match. intros (a & t & -> & H)%search_Some.
  unfold match_at in H.
  destruct (run numericRe (0 + length a) [] t) as [[caps rest]|] eqn:Hr; [|discriminate].
  unfold numericRe in Hr. rewrite js_amp_hash, js_semicolon in Hr.
  apply run_lit_Some in Hr as (r1 & -> & Hr).
  apply run_group_many_Some in Hr as (digs & r2 & -> & Hdigs & _ & Hr).
  apply (run_lit_Some [59] []) in Hr as (r3 & -> & _).
  exists a, digs, r3. auto.
Qed.

Lemma first_semicolon (l1 l2 r : jsstr) :
  59 ∉ l1 -> l1 ++ [59] = l2 ++ 59 :: r -> l1 = l2 /\ r = [].
Proof.
  revert l2.
  induction l1 as [|c l1 IH]; intros l2 H E.
  - destruct l2 as [|c l2]; [injection E as <-; auto|].
    injection E as _ E. destruct l2; discriminate.
  - apply not_elem_of_cons in H as [Hc H].
    destruct l2 as [|c' l2]; [injection E as -> _; contradiction|].
    injection E as <- E. destruct (IH l2 H E) as [-> ->]. auto.
Qed.

Lemma digits_after_number_sign (a digs u b : jsstr) :
  forallb digit digs = true -> 35 ∉ b ->
  a ++ 35 :: digs <> u ++ 38 :: b.
Proof.
  revert b.
  induction digs as [|d digs IH] using rev_ind; intros b Hd Hb E.
  - destruct b as [|c b _] using rev_ind.
    + change (a ++ [35] = u ++ [38]) in E.
      apply app_inj_tail in E as [_ E]. discriminate.
    + rewrite app_comm_cons, app_assoc in E.
      change (a ++ [35] = (u ++ 38 :: b) ++ [c]) in E.
      apply app_inj_tail in E as [_ <-].
      apply Hb. apply elem_of_app. right. left.
  - rewrite forallb_app in Hd. apply andb_true_iff in Hd as [Hd Hd1].
    cbn [forallb] in Hd1. rewrite andb_true_r in Hd1.
    rewrite app_comm_cons, app_assoc in E.
    destruct b as [|c b _] using rev_ind.
    + change ((a ++ 35 :: digs) ++ [d] = u ++ [38]) in E.
      apply app_inj_tail in E as [_ ->]. discriminate.
    + rewrite (app_comm_cons b), (app_assoc u) in E.
      apply app_inj_tail in E as [E _].
      apply (IH b Hd); [|exact E].
      intros Hin. apply Hb. apply elem_of_app. left. exact Hin.
Qed.

(** An ampersand that starts no reference hides the next reference: up to
    its semicolon the text is one match, which is no key of the table, and
    it is left as it is when the hidden reference has no number sign. *)
Theorem decodeHTMLEntities_stray_ampersand_named (x b rest : jsstr) :
  59 ∉ x -> 59 ∉ b -> 35 ∉ b ->
  decodeHTMLEntities (js "&" ++ x ++ js "&" ++ b ++ js ";" ++ rest)
  = js "&" ++ x ++ js "&" ++ b ++ js ";" ++ decodeHTMLEntities rest.
Proof.
  intros Hx Hb Hb35. rewrite js_semicolon. change (js "&") with [38].
  replace ([38] ++ x ++ [38] ++ b ++ [59] ++ rest)
    with ((38 :: (x ++ 38 :: b) ++ [59]) ++ rest)
    by (cbn [app]; rewrite <- !app_assoc; reflexivity).
  replace ([38] ++ x ++ [38] ++ b ++ [59] ++ decodeHTMLEntities rest)
    with ((38 :: (x ++ 38 :: b) ++ [59]) ++ decodeHTMLEntities rest)
    by (cbn [app]; rewrite <- !app_assoc; reflexivity).
  rewrite decode_reference_prefix.
  - f_equal. unfold decode_entity. rewrite entities_two_ampersands.
    destruct (js_match numericRe _) as [m|] eqn:Hm; [|reflexivity].
    exfalso. apply numericRe_inv in Hm as (a & digs & r & E & Hd).
    rewrite app_comm_cons in E.
    replace (a ++ [38; 35] ++ digs ++ [59] ++ r)
      with ((a ++ [38; 35] ++ digs) ++ 59 :: r) in E
      by (rewrite <- !app_assoc; reflexivity).
    apply first_semicolon in E as [E _].
    + rewrite app_comm_cons in E. symmetry in E.
      replace (a ++ [38; 35] ++ digs) with ((a ++ [38]) ++ 35 :: digs) in E
        by (rewrite <- app_assoc; reflexivity).
      exact (digits_after_number_sign _ _ _ _ Hd Hb35 E).
    + apply not_elem_of_cons. split; [discriminate|].
      apply not_elem_of_app. split; [exact Hx|].
      apply not_elem_of_cons. split; [discriminate|exact Hb].
  - destruct x; discriminate.
  - rewrite forallb_app. rewrite not_chr_forallb by exact Hx.
    cbn [forallb andb]. rewrite not_chr_forallb by exact Hb. reflexivity.
Qed.

Lemma decodeHTMLEntities_stray_ampersand_named_witness :
  decodeHTMLEntities (js "&" ++ js "T " ++ js "&" ++ js "amp" ++ js ";" ++ js " Co")
  = js "&T &amp; Co".
Proof.
  refine (eq_trans (decodeHTMLEntities_stray_ampersand_named
                      (js "T ") (js "amp") (js " Co") _ _ _) _).
  - vm_compute. intros H.
    repeat (apply elem_of_cons in H as [H|H]; [discriminate|]). inversion H.
  - vm_compute. intros H.
    repeat (apply elem_of_cons in H as [H|H]; [discriminate|]). inversion H.
  - vm_compute. intros H.
    repeat (apply elem_of_cons in H as [H|H]; [discriminate|]). inversion H.
  - vm_compute. reflexivity.
Defined.

(** ** The review content in general *)

Lemma trimStart_elem (c : Z) (s : jsstr) : c ∈ trimStart s -> c ∈ s.
Proof.
  induction s as [|x s IH]; [auto|].
  cbn [trimStart]. destruct (space x); [|auto].
  intros H. right. exact (IH H).
Qed.

Lemma rev_elem (c : Z) (s : jsstr) : c ∈ rev s <-> c ∈ s.
Proof. rewrite !list_elem_of_In. symmetry. apply in_rev. Qed.

Lemma trim_elem (c : Z) (s : jsstr) : c ∈ trim s -> c ∈ s.
Proof.
  unfold trim, trimEnd. intros H.
  apply rev_elem, trimStart_elem, rev_elem, trimStart_elem in H. exact H.
Qed.

Lemma placeholder_no_glyph (language : jsstr) (c : Z) :
  c ∈ placeholder language -> ~ rating_glyph c.
Proof.
  intros Hc.
  assert (H : forallb (fun x => negb (oneof [star_filled; star_empty] x))
                (placeholder language) = true).
  { unfold placeholder. case_bool_decide; vm_compute; reflexivity. }
  rewrite forallb_forall in H. specialize (H c).
  rewrite <- list_elem_of_In in H. specialize (H Hc).
  apply negb_true_iff in H. unfold oneof in H. cbn [existsb] in H.
  rewrite orb_false_r, orb_false_iff, !Z.eqb_neq in H.
  unfold rating_glyph. tauto.
Qed.

(** Whatever the description, the content has no rating glyph in it: the
    glyphs inside the text are removed with the ones in front of it. *)
Theorem getReviewContent_no_glyph (description language : jsstr) (c : Z) :
  c ∈ getReviewContent description language -> ~ rating_glyph c.
Proof.
  assert (Hclean : forall x, x ∈ cleanDescription description -> ~ rating_glyph x).
  { intros x Hx. rewrite cleanDescription_filter in Hx.
    apply trim_elem, list_elem_of_filter in Hx as [Hx _]. exact Hx. }
  unfold getReviewContent.
  destruct (truthy (cleanDescription description)); cbn [negb].
  - destruct (js_match quoteRe (cleanDescription description)) as [m|] eqn:Hm.
    + apply quoteRe_inv in Hm as (inner & E & _ & ->). cbn [grp nth].
      intros Hc%trim_elem. apply Hclean. rewrite E.
      apply elem_of_app. right. apply elem_of_app. left. exact Hc.
    + apply Hclean.
  - apply placeholder_no_glyph.
Qed.

Lemma getReviewContent_no_glyph_witness :
  star_filled ∈ js "★★★★☆ Worth every ★ of it"
  /\ star_filled ∉ getReviewContent (js "★★★★☆ Worth every ★ of it") (js "en").
Proof.
  split.
  - vm_compute. left.
  - intros H.
    apply (getReviewContent_no_glyph _ _ _ H). left. reflexivity.
Defined.

Lemma trimStart_spaces (ws s : jsstr) :
  forallb space ws = true -> trimStart (ws ++ s) = trimStart s.
Proof.
  induction ws as [|c ws IH]; [reflexivity|].
  cbn [forallb]. intros [Hc Hws]%andb_true_iff.
  cbn [app trimStart]. rewrite Hc. exact (IH Hws).
Qed.

(** Trimming removes the white space around a text that starts and ends
    with other characters, and nothing else. *)
Lemma trim_wrapped (ws : jsstr) (a z : Z) (x : jsstr) :
  forallb space ws = true -> space a = false -> space z = false ->
  trim (ws ++ a :: x ++ [z]) = a :: x ++ [z].
Proof.
  intros Hws Ha Hz. unfold trim, trimEnd.
  rewrite trimStart_spaces by exact Hws.
  rewrite trimStart_fixed by exact Ha.
  change (a :: x ++ [z]) with ((a :: x) ++ [z]).
  rewrite rev_app_distr. cbn [rev app].
  rewrite trimStart_fixed by exact Hz.
  change (z :: rev x ++ [a]) with ([z] ++ rev (a :: x)).
  rewrite rev_app_distr, rev_involutive. reflexivity.
Qed.

Lemma space_not_glyph (c : Z) : space c = true -> ~ rating_glyph c.
Proof. intros H [->| ->]; vm_compute in H; discriminate. Qed.

Lemma filter_glyphs_stars (stars : jsstr) :
  Forall rating_glyph stars -> filter (fun c => ~ rating_glyph c) stars = [].
Proof.
  induction 1 as [|c stars Hc _ IH]; [reflexivity|].
  rewrite filter_cons_False by tauto. exact IH.
Qed.

Lemma filter_glyphs_spaces (ws : jsstr) :
  forallb space ws = true -> filter (fun c => ~ rating_glyph c) ws = ws.
Proof.
  induction ws as [|c ws IH]; [reflexivity|].
  cbn [forallb]. intros [Hc Hws]%andb_true_iff.
  rewrite filter_cons_True by (apply space_not_glyph, Hc).
  rewrite (IH Hws). reflexivity.
Qed.

Lemma forallb_filter_dot (P : Z -> Prop) `{!forall c, Decision (P c)} (s : jsstr) :
  forallb dot s = true -> forallb dot (filter P s) = true.
Proof.
  induction s as [|c s IH]; [reflexivity|].
  cbn [forallb]. intros [Hc Hs]%andb_true_iff.
  destruct (decide (P c)).
  - rewrite filter_cons_True by assumption. cbn [forallb]. rewrite Hc. exact (IH Hs).
  - rewrite filter_cons_False by assumption. exact (IH Hs).
Qed.

Lemma cleanDescription_quoted (stars ws inner : jsstr) :
  Forall rating_glyph stars -> forallb space ws = true ->
  cleanDescription (stars ++ ws ++ [dq] ++ inner ++ [dq])
  = [dq] ++ filter (fun c => ~ rating_glyph c) inner ++ [dq].
Proof.
  intros Hstars Hws.
  rewrite cleanDescription_filter, !filter_app.
  rewrite filter_glyphs_stars by exact Hstars.
  rewrite filter_glyphs_spaces by exact Hws.
  rewrite !(filter_cons_True _ dq []) by (intros [H|H]; discriminate H).
  cbn [app]. apply trim_wrapped; [exact Hws|reflexivity|reflexivity].
Qed.

Lemma content_quoted (stars ws inner language : jsstr) :
  Forall rating_glyph stars -> forallb space ws = true ->
  forallb dot inner = true ->
  getReviewContent (stars ++ ws ++ [dq] ++ inner ++ [dq]) language
  = trim (filter (fun c => ~ rating_glyph c) inner).
Proof.
  intros Hstars Hws Hdot.
  unfold getReviewContent. rewrite cleanDescription_quoted by assumption.
  rewrite quoteRe_intro by (apply forallb_filter_dot, Hdot).
  reflexivity.
Qed.

(** The usual shape of a description, stars, white space and a text in
    double quotes on one line: the content is the text without its
    quotes, without the rating glyphs inside it, trimmed. *)
Theorem getReviewContent_quoted (stars ws inner language : jsstr) :
  Forall rating_glyph stars -> forallb space ws = true ->
  forallb dot inner = true ->
  getReviewContent (stars ++ ws ++ [dq] ++ inner ++ [dq]) language
  = trim (filter (fun c => ~ rating_glyph c) inner).
Proof. intros Hstars Hws Hdot. apply content_quoted; assumption. Qed.

Lemma getReviewContent_quoted_witness :
  getReviewContent
    (js "★★★★★" ++ js " " ++ [dq] ++ js " Great ★ service! " ++ [dq]) (js "en")
  = js "Great  service!".
Proof.
  refine (eq_trans (getReviewContent_quoted (js "★★★★★") (js " ")
                      (js " Great ★ service! ") (js "en") _ _ _) _).
  - vm_compute. repeat constructor.
  - vm_compute. reflexivity.
  - vm_compute. reflexivity.
  - vm_compute. reflexivity.
Defined.

(** A text in double quotes that has a line break in it keeps its quotes:
    the dot of the quote pattern does not match a line terminator. *)
Theorem getReviewContent_line_break (description inner language : jsstr) :
  cleanDescription description = [dq] ++ inner ++ [dq] ->
  forallb dot inner = false ->
  getReviewContent description language = [dq] ++ inner ++ [dq].
Proof.
  intros E Hdot. unfold getReviewContent. rewrite E.
  destruct (js_match quoteRe ([dq] ++ inner ++ [dq])) as [m|] eqn:Hm; [|reflexivity].
  exfalso. apply quoteRe_inv in Hm as (inner' & E' & Hdot' & _).
  injection E' as E'. apply app_inj_tail in E' as [-> _]. congruence.
Qed.

Lemma getReviewContent_line_break_witness :
  getReviewContent (js "★★★ " ++ [dq] ++ js "Good." ++ [10] ++ js "Slow." ++ [dq]) (js "en")
  = [dq] ++ (js "Good." ++ [10] ++ js "Slow.") ++ [dq].
Proof.
  apply (getReviewContent_line_break _ (js "Good." ++ [10] ++ js "Slow.")).
  - vm_compute. reflexivity.
  - vm_compute. reflexivity.
Defined.

(** ** The page language in general *)

Lemma split_hd_no_sep (sep : Z) (s : jsstr) : sep ∉ hd [] (split sep s).
Proof.
  induction s as [|c s IH]; [cbn; inversion 1|].
  cbn [split]. destruct (c =? sep) eqn:Hc; [cbn; inversion 1|].
  apply Z.eqb_neq in Hc.
  destruct (split sep s) as [|p ps]; cbn [hd] in *.
  - apply not_elem_of_cons. split; [congruence|inversion 1].
  - apply not_elem_of_cons. split; [congruence|exact IH].
Qed.

Lemma split_hd_decomp (sep : Z) (s : jsstr) :
  exists region,
    s = hd [] (split sep s) ++ region
    /\ (region = [] \/ exists t, region = sep :: t).
Proof.
  induction s as [|c s (region & E & Hr)]; [exists []; auto|].
  cbn [split]. destruct (c =? sep) eqn:Hc.
  - apply Z.eqb_eq in Hc as ->. exists (sep :: s). cbn [hd app]. eauto.
  - exists region. split; [|exact Hr].
    destruct (split sep s) as [|p ps]; cbn [hd app] in *; congruence.
Qed.

(** What the language pattern finds: behind a lower-case html tag text and
    characters other than the closing angle bracket, a lower-case lang
    attribute in double quotes; its group is the value of the attribute. *)
Lemma langRe_inv_value (html : jsstr) (m : list jsstr) :
  js_match langRe html = Some m ->
  exists a attrs b,
    html = a ++ js "<html" ++ attrs ++ (js "lang=" ++ [dq]) ++ grp m 1 ++ [dq] ++ b
    /\ (62 ∉ attrs) /\ (dq ∉ grp m 1).
Proof.
  unfold js_match. intros (a & t & -> & H)%search_Some.
  unfold match_at in H.
  destruct (run langRe (0 + length a) [] t) as [[caps rest]|] eqn:Hr; [|discriminate].
  injection H as <-.
  unfold langRe in Hr.
  apply run_lit_Some in Hr as (r1 & -> & Hr).
  cbn [app] in Hr.
  apply run_many_Some in Hr as (attrs & r2 & -> & Hattrs & _ & Hr).
  apply run_lit_Some in Hr as (r3 & -> & Hr).
  apply run_group_many_Some in Hr as (v & r4 & -> & Hv & _ & Hr).
  apply (run_lit_Some [dq] []) in Hr as (b & -> & Hr).
  cbn [run app] in Hr. injection Hr as <- <-.
  exists a, attrs, b. cbn [grp nth].
  split; [reflexivity|]. split; apply forallb_not_chr; assumption.
Qed.

(** The language of a page is never empty and never has a hyphen in it.
    It is en, or it stands in the page: behind a lower-case html tag text,
    with no closing angle bracket in between, there is a lang attribute in
    double quotes, and the language is its value up to the first hyphen. *)
Theorem pageLang_primary_subtag (html : jsstr) :
  pageLang html <> [] /\ (45 ∉ pageLang html)
  /\ (pageLang html = js "en"
      \/ exists a attrs region b,
           html = a ++ js "<html" ++ attrs ++ (js "lang=" ++ [dq])
                    ++ (pageLang html ++ region) ++ [dq] ++ b
           /\ (62 ∉ attrs) /\ (dq ∉ pageLang html ++ region)
           /\ (region = [] \/ exists t, region = 45 :: t)).
Proof.
  assert (Hen : js "en" <> [] /\ (45 ∉ js "en")).
  { split; [vm_compute; discriminate|].
    vm_compute. intros H.
    repeat (apply elem_of_cons in H as [H|H]; [discriminate|]). inversion H. }
  assert (Hcases :
    pageLang html = js "en"
    \/ exists m, js_match langRe html = Some m
                 /\ pageLang html = hd [] (split 45 (grp m 1))
                 /\ pageLang html <> []).
  { unfold pageLang.
    destruct (js_match langRe html) as [m|]; [|left; reflexivity].
    cbv zeta.
    destruct (hd [] (split 45 (grp m 1))) as [|c p] eqn:Hp; cbn [truthy];
      [left; reflexivity|].
    right. exists m. repeat split; [symmetry; exact Hp|discriminate]. }
  destruct Hcases as [E|(m & Hm & E & Hne)].
  - rewrite E. split; [apply Hen|]. split; [apply Hen|]. left. reflexivity.
  - split; [exact Hne|]. split; [rewrite E; apply split_hd_no_sep|].
    right. apply langRe_inv_value in Hm as (a & attrs & b & Eh & Hattrs & Hv).
    destruct (split_hd_decomp 45 (grp m 1)) as (region & Ev & Hregion).
    rewrite <- E in Ev. rewrite Ev in Eh, Hv.
    exists a, attrs, region, b. auto.
Qed.

Section GreedyPick.
Context {R : Type}.
Implicit Types (k : jsstr -> jsstr -> option R) (p : Z -> bool).

(** A greedy repetition stops at a cut that the rest of the pattern accepts
    when it accepts no longer one. *)
Lemma many_greedy_pick p k acc txt rest r :
  forallb p txt = true ->
  k (acc ++ txt) rest = Some r ->
  (forall m1 m2, rest = m1 ++ m2 -> m1 <> [] -> forallb p m1 = true ->
     k (acc ++ txt ++ m1) m2 = None) ->
  many true 0 p k acc (txt ++ rest) = Some r.
Proof.
  revert acc.
  induction txt as [|c txt IH]; intros acc Hall Hk Hnone.
  - rewrite (app_nil_r acc) in Hk. rewrite app_nil_l.
    destruct rest as [|c t].
    + rewrite many_nil. exact Hk.
    + rewrite many_cons_greedy.
      assert (Hmore : (if p c then many true (pred 0) p k (acc ++ [c]) t else None) = None).
      { destruct (p c) eqn:Hc; [|reflexivity].
        apply many_None. intros m1 m2 -> Hm1 _.
        rewrite <- app_assoc.
        apply (Hnone (c :: m1) m2); [reflexivity|discriminate|].
        cbn [forallb]. rewrite Hc, Hm1. reflexivity. }
      rewrite Hmore. exact Hk.
  - cbn [forallb] in Hall. apply andb_true_iff in Hall as [Hc Hall].
    rewrite <- app_comm_cons, many_cons_greedy, Hc. cbn [pred].
    rewrite (IH (acc ++ [c])); auto.
    + rewrite <- app_assoc. exact Hk.
    + intros m1 m2 -> Hm1 Hp. rewrite <- app_assoc.
      apply (Hnone m1 m2); auto.
Qed.
End GreedyPick.

Lemma app_prefix_le (l1 l2 p r : jsstr) :
  l1 ++ l2 = p ++ r -> (length p <= length l1)%nat -> exists b, l1 = p ++ b.
Proof.
  revert l1.
  induction p as [|x p IH]; intros l1 E Hlen; [exists l1; reflexivity|].
  destruct l1 as [|y l1]; [cbn in Hlen; lia|].
  injection E as -> E. cbn [length] in Hlen.
  destruct (IH l1 E ltac:(lia)) as [b ->]. exists b. reflexivity.
Qed.

(** Where a character occurs first in a string: two ways of cutting the
    string at that character agree, or the other cut is further on. *)
Lemma first_occurrence (c : Z) (l1 r1 l2 r2 : jsstr) :
  c ∉ l1 -> l1 ++ c :: r1 = l2 ++ c :: r2 ->
  (l1 = l2 /\ r1 = r2) \/ exists l2', l2 = l1 ++ c :: l2' /\ r1 = l2' ++ c :: r2.
Proof.
  revert l2.
  induction l1 as [|x l1 IH]; intros l2 Hc E.
  - destruct l2 as [|y l2].
    + injection E as <-. auto.
    + injection E as <- E. right. exists l2. auto.
  - apply not_elem_of_cons in Hc as [Hx Hc].
    destruct l2 as [|y l2]; [injection E as -> _; contradiction|].
    injection E as <- E.
    destruct (IH l2 Hc E) as [[-> ->]|(l2' & -> & ->)]; [auto|].
    right. exists l2'. auto.
Qed.

Lemma js_html_tag : js "<html" = js "<htm" ++ [108].
Proof. vm_compute. reflexivity. Qed.

Lemma js_lang_attr : js "lang=" ++ [dq] = [108; 97; 110; 103; 61; dq].
Proof. vm_compute. reflexivity. Qed.

Lemma js_gt : js ">" = [62].
Proof. vm_compute. reflexivity. Qed.

(** Behind a cut further on than the attribute, its name and opening quote
    cannot stand again before the tag ends. *)
Lemma langRe_no_later_cut (m1 r1 v rest : jsstr) :
  m1 <> [] -> 62 ∉ m1 -> dq ∉ v -> 62 ∉ v -> 61 ∉ v ->
  [108; 97; 110; 103; 61; dq] ++ v ++ [dq] ++ 62 :: rest
    <> m1 ++ [108; 97; 110; 103; 61; dq] ++ r1.
Proof.
  intros Hm1 H62 Hdq Hv62 Hv61 E.
  change ([108; 97; 110; 103; 61; dq] ++ v ++ [dq] ++ 62 :: rest)
    with ([108; 97; 110; 103; 61] ++ dq :: (v ++ dq :: 62 :: rest)) in E.
  replace (m1 ++ [108; 97; 110; 103; 61; dq] ++ r1)
    with ((m1 ++ [108; 97; 110; 103; 61]) ++ dq :: r1) in E
    by (rewrite <- app_assoc; reflexivity).
  apply first_occurrence in E as [[E _]|(l2 & E & E2)].
  - apply (f_equal length) in E. rewrite length_app in E.
    destruct m1; [contradiction|]. cbn [length] in E. lia.
  - apply first_occurrence in E2 as [[<- _]|(l3 & -> & E3)]; [| |exact Hdq].
    + change (m1 ++ [108; 97; 110; 103; 61])
        with (m1 ++ [108; 97; 110; 103] ++ [61]) in E.
      rewrite app_assoc in E.
      destruct v as [|x v _] using rev_ind.
      * apply app_inj_tail in E as [_ E]. discriminate E.
      * rewrite app_comm_cons, app_assoc in E.
        apply app_inj_tail in E as [_ <-].
        apply Hv61. apply elem_of_app. right. left.
    + assert (H : 62 ∈ m1 ++ [108; 97; 110; 103; 61]).
      { rewrite E. apply elem_of_app. right. right.
        apply elem_of_app. right. right.
        destruct l3 as [|x l3]; [discriminate|].
        injection E3 as <- _. left. }
      apply elem_of_app in H as [H|H]; [contradiction|].
      repeat (apply elem_of_cons in H as [H|H]; [discriminate|]). inversion H.
  - intros H. repeat (apply elem_of_cons in H as [H|H]; [discriminate|]). inversion H.
Qed.

Lemma split_hd_primary (primary region : jsstr) :
  45 ∉ primary -> (region = [] \/ exists t, region = 45 :: t) ->
  hd [] (split 45 (primary ++ region)) = primary.
Proof.
  intros Hp Hr.
  induction primary as [|c primary IH].
  - destruct Hr as [->|[t ->]]; reflexivity.
  - apply not_elem_of_cons in Hp as [Hc Hp].
    cbn [app split]. apply Z.eqb_neq in Hc. rewrite Z.eqb_sym, Hc.
    specialize (IH Hp).
    destruct (split 45 (primary ++ region)); cbn [hd] in *; congruence.
Qed.

(** The match of the language pattern in a page whose html tag ends with
    the lang attribute: the group is the value of the attribute. *)
Lemma langRe_hit (pre attrs v rest : jsstr) :
  occursb (js "<html") (pre ++ js "<htm") = false ->
  62 ∉ attrs -> dq ∉ v -> 62 ∉ v -> 61 ∉ v ->
  js_match langRe
    (pre ++ js "<html" ++ attrs ++ (js "lang=" ++ [dq]) ++ v ++ [dq] ++ 62 :: rest)
  = Some [js "<html" ++ attrs ++ (js "lang=" ++ [dq]) ++ v ++ [dq]; v].
Proof.
  intros Hpre Hattrs Hdq Hv62 Hv61. unfold js_match.
  apply search_first.
  - intros a1 a2 -> Ha2. unfold match_at.
    destruct (run langRe _ [] _) as [[caps r]|] eqn:H; [|reflexivity].
    exfalso. unfold langRe in H.
    apply run_lit_Some in H as (r1 & E & _).
    rewrite js_html_tag in E at 1.
    rewrite <- !app_assoc in E. rewrite (app_assoc a2) in E.
    apply app_prefix_le in E as [b E].
    + apply (occursb_false _ _ Hpre a1 b).
      rewrite <- app_assoc, E. reflexivity.
    + rewrite length_app. destruct a2; [contradiction|].
      assert (E5 : length (js "<html") = 5%nat) by (vm_compute; reflexivity).
      assert (E4 : length (js "<htm") = 4%nat) by (vm_compute; reflexivity).
      rewrite E5, E4. cbn [length]. lia.
  - unfold match_at, langRe. rewrite run_lit_app. cbn [app run item_match].
    rewrite js_lang_attr.
    rewrite (many_greedy_pick (not_chr 62) _ [] attrs _ ([v], 62 :: rest)).
    + rewrite <- js_lang_attr.
      pose proof (take_matched (js "<html" ++ attrs ++ (js "lang=" ++ [dq]) ++ v ++ [dq])
                    (62 :: rest)) as Ht.
      rewrite <- !app_assoc in Ht. rewrite <- !app_assoc.
      cbn [app] in Ht |- *. rewrite Ht. reflexivity.
    + apply not_chr_forallb, Hattrs.
    + rewrite run_lit_app. cbn [app run item_match].
      rewrite (many_greedy_longest 0 (not_chr dq) _ [] v _ ([v], 62 :: rest)).
      * reflexivity.
      * apply not_chr_forallb, Hdq.
      * intros c t [= <- _]. reflexivity.
      * lia.
      * reflexivity.
    + intros m1 m2 E Hm1 Hp.
      destruct (run _ _ [] m2) as [[caps r]|] eqn:H; [|reflexivity].
      exfalso. apply run_lit_Some in H as (r1 & -> & _).
      apply forallb_not_chr in Hp.
      exact (langRe_no_later_cut m1 r1 v rest Hm1 Hp Hdq Hv62 Hv61 E).
Qed.

(** A page whose html tag ends with the lang attribute has the primary
    subtag of its value, the text before the first hyphen, as its
    language. *)
Theorem pageLang_of_tag (pre attrs primary region rest : jsstr) :
  occursb (js "<html") (pre ++ js "<htm") = false ->
  62 ∉ attrs ->
  primary <> [] -> 45 ∉ primary ->
  region = [] \/ (exists t, region = 45 :: t) ->
  dq ∉ primary ++ region -> 62 ∉ primary ++ region -> 61 ∉ primary ++ region ->
  pageLang
    (pre ++ js "<html" ++ attrs ++ (js "lang=" ++ [dq]) ++ (primary ++ region)
         ++ [dq] ++ js ">" ++ rest)
  = primary.
Proof.
  intros Hpre Hattrs Hne H45 Hregion Hdq H62 H61.
  unfold pageLang. rewrite js_gt. change ([62] ++ rest) with (62 :: rest).
  rewrite (langRe_hit pre attrs (primary ++ region) rest) by assumption.
  cbn [grp nth]. rewrite split_hd_primary by assumption.
  destruct primary; [contradiction|reflexivity].
Qed.

Lemma pageLang_of_tag_witness :
  pageLang
    (js "<!doctype html>" ++ js "<html" ++ js " dir='ltr' " ++ (js "lang=" ++ [dq])
       ++ (js "de" ++ js "-AT") ++ [dq] ++ js ">" ++ js "<head></head>")
  = js "de".
Proof.
  apply (pageLang_of_tag (js "<!doctype html>") (js " dir='ltr' ") (js "de") (js "-AT")).
  - vm_compute. reflexivity.
  - vm_compute. intros H.
    repeat (apply elem_of_cons in H as [H|H]; [discriminate|]). inversion H.
  - vm_compute. discriminate.
  - vm_compute. intros H.
    repeat (apply elem_of_cons in H as [H|H]; [discriminate|]). inversion H.
  - right. vm_compute. eexists. reflexivity.
  - vm_compute. intros H.
    repeat (apply elem_of_cons in H as [H|H]; [discriminate|]). inversion H.
  - vm_compute. intros H.
    repeat (apply elem_of_cons in H as [H|H]; [discriminate|]). inversion H.
  - vm_compute. intros H.
    repeat (apply elem_of_cons in H as [H|H]; [discriminate|]). inversion H.
Defined.

(** ** The title templates in general *)

Lemma run_lit_i_Some l pat pos caps s r :
  run (lit_i l ++ pat) pos caps s = Some r ->
  exists l' rest,
    s = l' ++ rest /\ map canonicalize l' = map canonicalize l
    /\ run pat (pos + length l) caps rest = Some r.
Proof.
  revert pos s.
  induction l as [|c l IH]; intros pos s H.
  - exists [], s. rewrite Nat.add_0_r. auto.
  - change (lit_i (c :: l) ++ pat) with (Plain (One (chr_i c)) :: (lit_i l ++ pat)) in H.
    apply run_one_Some in H as (x & rest & -> & Hx & H).
    apply Z.eqb_eq in Hx.
    apply IH in H as (l' & rest' & -> & Hl & H).
    exists (x :: l'), rest'. split; [reflexivity|]. split.
    + cbn [map]. rewrite Hx, Hl. reflexivity.
    + simpl length. rewrite <- Nat.add_succ_comm. exact H.
Qed.

Lemma run_lit_i_app l l' pat pos caps rest :
  map canonicalize l' = map canonicalize l ->
  run (lit_i l ++ pat) pos caps (l' ++ rest) = run pat (pos + length l) caps rest.
Proof.
  revert pos l'.
  induction l as [|c l IH]; intros pos l' Hl.
  - destruct l'; [|discriminate]. simpl. rewrite Nat.add_0_r. reflexivity.
  - destruct l' as [|x l']; [discriminate|]. cbn [map] in Hl. injection Hl as Hx Hl.
    change (lit_i (c :: l) ++ pat) with (Plain (One (chr_i c)) :: (lit_i l ++ pat)).
    rewrite <- app_comm_cons, run_one_cons.
    unfold chr_i at 1. rewrite Hx, Z.eqb_refl, (IH _ _ Hl).
    simpl length. rewrite <- Nat.add_succ_comm. reflexivity.
Qed.

Lemma occursb_i_false (needle s a n b : jsstr) :
  occursb_i needle s = false ->
  map canonicalize n = map canonicalize needle ->
  s <> a ++ n ++ b.
Proof.
  intros H Hn ->. unfold occursb_i in H.
  apply (occursb_false _ _ H (map canonicalize a) (map canonicalize b)).
  rewrite !map_app, Hn. reflexivity.
Qed.

(** A pattern that starts with literal text under the [i] flag finds
    nothing in a subject where that text does not occur in any case. *)
Lemma lit_i_search_None (l : jsstr) (pat : regex) (s : jsstr) :
  occursb_i l s = false -> js_match (lit_i l ++ pat) s = None.
Proof.
  intros H. unfold js_match. apply search_None. intros a t -> .
  destruct (run _ _ [] t) as [r|] eqn:Hr; [|reflexivity].
  exfalso. apply run_lit_i_Some in Hr as (l' & rest & -> & Hl & _).
  exact (occursb_i_false _ _ a l' rest H Hl eq_refl).
Qed.

(** A template, prefix phrase, business, connector and reviewer: the lazy
    group stops at the first connector and the greedy one takes the rest of
    the line. *)
Lemma template_hit (P0 C0 P C b r : jsstr) :
  map canonicalize P = map canonicalize P0 ->
  map canonicalize C = map canonicalize C0 ->
  C0 <> [] ->
  forallb dot b = true -> forallb dot r = true ->
  occursb_i C0 (b ++ removelast C) = false ->
  js_match (lit_i P0 ++ [Group (Many false 0 dot)] ++ lit_i C0 ++ [Group (Many true 0 dot)])
           (P ++ b ++ C ++ r)
  = Some [P ++ b ++ C ++ r; b; r].
Proof.
  intros HP HC HC0 Hb Hr Hocc. unfold js_match.
  apply (search_first _ 0 []); [intros a1 a2 E; destruct a1, a2; try discriminate; contradiction|].
  unfold match_at. cbn [length Nat.add].
  rewrite (run_lit_i_app P0 P) by exact HP.
  cbn [app run item_match].
  rewrite (many_lazy_first dot _ [] b (C ++ r) ([b; r], [])).
  - rewrite Nat.sub_0_r, firstn_all. reflexivity.
  - exact Hb.
  - intros t1 t2 -> Ht2.
    destruct (run _ _ _ (t2 ++ C ++ r)) as [x|] eqn:Hx; [|reflexivity].
    exfalso. apply run_lit_i_Some in Hx as (C' & z & E & HC' & _).
    assert (HCl : C = removelast C ++ [List.last C 0]).
    { apply app_removelast_last. destruct C; [|discriminate].
      destruct C0; [contradiction|discriminate]. }
    rewrite HCl, <- (app_assoc (removelast C)), (app_assoc t2) in E.
    apply app_prefix_le in E as [z' E].
    + apply (occursb_i_false _ _ t1 C' z' Hocc HC').
      rewrite <- app_assoc, E. reflexivity.
    + apply (f_equal length) in HC', HC. rewrite !length_map in HC', HC.
      rewrite HC', <- HC, length_app.
      rewrite HCl at 1. rewrite length_app. cbn [length].
      destruct t2; [contradiction|]. cbn [length]. lia.
  - rewrite (run_lit_i_app C0 C) by exact HC.
    cbn [app run item_match].
    rewrite <- (app_nil_r r) at 1.
    rewrite (many_greedy_longest 0 dot _ [] r [] ([b; r], [])); auto.
    + discriminate.
    + lia.
Qed.

Lemma map_removelast (f : Z -> Z) (l : jsstr) :
  map f (removelast l) = removelast (map f l).
Proof.
  induction l as [|x l IH]; [reflexivity|].
  destruct l as [|y l]; [reflexivity|].
  cbn [removelast map] in *. rewrite IH. reflexivity.
Qed.

Lemma occursb_i_connector (C0 C b : jsstr) :
  map canonicalize C = map canonicalize C0 ->
  occursb_i C0 (b ++ removelast C0) = false ->
  occursb_i C0 (b ++ removelast C) = false.
Proof.
  intros HC H. unfold occursb_i in *.
  rewrite map_app, map_removelast in *. rewrite HC. exact H.
Qed.

(** The German template: a title made of the prefix phrase, a business, the
    connector and a reviewer, in any case, gives the business and the
    reviewer, trimmed, when the connector does not occur earlier and
    neither name has a line break. *)
Theorem parseReviewTitle_german (P C b r : jsstr) :
  map canonicalize P = map canonicalize (js "Google-Rezension über ") ->
  map canonicalize C = map canonicalize (js " von ") ->
  forallb dot b = true -> forallb dot r = true ->
  occursb_i (js " von ") (b ++ js " von") = false ->
  parseReviewTitle (P ++ b ++ C ++ r)
  = {| businessName := trim b; reviewerName := trim r |}.
Proof.
  intros HP HC Hb Hr Hocc.
  assert (Hm : js_match germanRe (P ++ b ++ C ++ r) = Some [P ++ b ++ C ++ r; b; r]).
  { unfold germanRe. apply template_hit; [exact HP|exact HC| |exact Hb|exact Hr|].
    - intros E. apply (f_equal length) in E. vm_compute in E. discriminate E.
    - apply occursb_i_connector; [exact HC|].
      replace (removelast (js " von ")) with (js " von") by (vm_compute; reflexivity).
      exact Hocc. }
  unfold parseReviewTitle. rewrite Hm. reflexivity.
Qed.

Lemma parseReviewTitle_german_witness :
  parseReviewTitle
    (js "GOOGLE-REZENSION ÜBER " ++ js " Café Mitte" ++ js " Von " ++ js "Hans von Müller ")
  = {| businessName := js "Café Mitte"; reviewerName := js "Hans von Müller" |}.
Proof.
  refine (eq_trans (parseReviewTitle_german (js "GOOGLE-REZENSION ÜBER ")
                      (js " Von ") (js " Café Mitte") (js "Hans von Müller ") _ _ _ _ _) _).
  - vm_compute. reflexivity.
  - vm_compute. reflexivity.
  - vm_compute. reflexivity.
  - vm_compute. reflexivity.
  - vm_compute. reflexivity.
  - vm_compute. reflexivity.
Defined.

(** The English template, for a title in which the German prefix phrase
    does not occur. *)
Theorem parseReviewTitle_english (P C b r : jsstr) :
  map canonicalize P = map canonicalize (js "Google review of ") ->
  map canonicalize C = map canonicalize (js " by ") ->
  forallb dot b = true -> forallb dot r = true ->
  occursb_i (js " by ") (b ++ js " by") = false ->
  occursb_i (js "Google-Rezension über ") (P ++ b ++ C ++ r) = false ->
  parseReviewTitle (P ++ b ++ C ++ r)
  = {| businessName := trim b; reviewerName := trim r |}.
Proof.
  intros HP HC Hb Hr Hocc Hg.
  assert (Hm : js_match englishRe (P ++ b ++ C ++ r) = Some [P ++ b ++ C ++ r; b; r]).
  { unfold englishRe. apply template_hit; [exact HP|exact HC| |exact Hb|exact Hr|].
    - intros E. apply (f_equal length) in E. vm_compute in E. discriminate E.
    - apply occursb_i_connector; [exact HC|].
      replace (removelast (js " by ")) with (js " by") by (vm_compute; reflexivity).
      exact Hocc. }
  unfold parseReviewTitle.
  unfold germanRe. rewrite lit_i_search_None by exact Hg.
  rewrite Hm. reflexivity.
Qed.

Lemma parseReviewTitle_english_witness :
  parseReviewTitle
    (js "Google review of " ++ js "Joe's Pizza" ++ js " by " ++ js "Jane Doe")
  = {| businessName := js "Joe's Pizza"; reviewerName := js "Jane Doe" |}.
Proof.
  refine (eq_trans (parseReviewTitle_english (js "Google review of ")
                      (js " by ") (js "Joe's Pizza") (js "Jane Doe") _ _ _ _ _ _) _).
  - vm_compute. reflexivity.
  - vm_compute. reflexivity.
  - vm_compute. reflexivity.
  - vm_compute. reflexivity.
  - vm_compute. reflexivity.
  - vm_compute. reflexivity.
  - vm_compute. reflexivity.
Defined.

(** A title in which neither prefix phrase occurs, in any case, gives two
    empty names. *)
Theorem parseReviewTitle_no_template (title : jsstr) :
  occursb_i (js "Google-Rezension über ") title = false ->
  occursb_i (js "Google review of ") title = false ->
  parseReviewTitle title = {| businessName := []; reviewerName := [] |}.
Proof.
  intros Hg He. unfold parseReviewTitle, germanRe, englishRe.
  rewrite !lit_i_search_None by assumption. reflexivity.
Qed.

Lemma parseReviewTitle_no_template_witness :
  parseReviewTitle (js "Avis Google sur Chez Paul par Anne")
  = {| businessName := []; reviewerName := [] |}.
Proof.
  apply parseReviewTitle_no_template.
  - vm_compute. reflexivity.
  - vm_compute. reflexivity.
Defined.

(** ** The meta tags *)

(** What a search finds is a piece of the subject. *)
Lemma js_match_substring (pat : regex) (s : jsstr) (m : list jsstr) :
  js_match pat s = Some m -> exists a rest, s = a ++ grp m 0 ++ rest.
Proof.
  unfold js_match. intros (a & t & -> & H)%search_Some.
  unfold match_at in H.
  destruct (run pat (0 + length a) [] t) as [[caps rest]|] eqn:Hr; [|discriminate].
  injection H as <-. apply run_suffix in Hr as [txt ->].
  exists a, rest. cbn [grp nth]. rewrite take_matched. reflexivity.
Qed.

Lemma lit_search_None (l : jsstr) (pat : regex) (s : jsstr) :
  occursb l s = false -> js_match (lit l ++ pat) s = None.
Proof.
  intros H. unfold js_match. apply search_None. intros a t ->.
  destruct (run _ _ [] t) as [r|] eqn:Hr; [|reflexivity].
  exfalso. apply run_lit_Some in Hr as (rest & -> & _).
  exact (occursb_false _ _ H a rest eq_refl).
Qed.

Lemma metaTagRe_inv (itemprop html : jsstr) (m : list jsstr) :
  js_match (metaTagRe itemprop) html = Some m ->
  exists a tag txt ip b,
    html = a ++ tag ++ txt ++ ip ++ b
    /\ map canonicalize tag = map canonicalize (js "<meta")
    /\ map canonicalize ip
       = map canonicalize (js "itemprop=" ++ [dq] ++ itemprop ++ [dq]).
Proof.
  unfold js_match. intros (a & t & -> & H)%search_Some.
  unfold match_at in H.
  destruct (run _ (0 + length a) [] t) as [r|] eqn:Hr; [|discriminate].
  unfold metaTagRe in Hr.
  apply run_lit_i_Some in Hr as (tag & r1 & -> & Htag & Hr).
  cbn [app] in Hr.
  apply run_many_Some in Hr as (txt & r2 & -> & _ & _ & Hr).
  apply run_lit_i_Some in Hr as (ip & b & -> & Hip & _).
  exists a, tag, txt, ip, b. auto.
Qed.

Lemma occursb_true (needle s : jsstr) :
  occursb needle s = true -> exists a b, s = a ++ needle ++ b.
Proof.
  induction s as [|c s IH]; cbn [occursb]; intros H.
  - rewrite orb_false_r in H. apply bool_decide_eq_true in H.
    exists [], []. rewrite take_nil in H. rewrite <- H. reflexivity.
  - apply orb_true_iff in H as [H|H].
    + apply bool_decide_eq_true in H.
      exists [], (drop (length needle) (c :: s)).
      pose proof (take_drop (length needle) (c :: s)) as E.
      rewrite H in E. cbn [app]. symmetry. exact E.
    + destruct (IH H) as (a & b & ->). exists (c :: a), b. reflexivity.
Qed.

Lemma truthy_or_empty (x : jsstr) : (if truthy x then x else []) = x.
Proof. destruct x; reflexivity. Qed.

Lemma extractMetaContent_no_meta (html itemprop : jsstr) :
  occursb_i (js "<meta") html = false -> extractMetaContent html itemprop = [].
Proof.
  intros H. unfold extractMetaContent, metaTagRe.
  rewrite lit_i_search_None by exact H. reflexivity.
Qed.

(** For an itemprop that stands for itself in the pattern: without a meta
    tag, without the wanted itemprop attribute in double quotes, or without
    a content attribute in lower case, the extracted value is the empty
    string. *)
Theorem extractMetaContent_missing (html itemprop : jsstr) :
  literal_itemprop itemprop = true ->
  occursb_i (js "<meta") html = false
  \/ occursb_i (js "itemprop=" ++ [dq] ++ itemprop ++ [dq]) html = false
  \/ occursb (js "content=") html = false ->
  extractMetaContent html itemprop = [].
Proof.
  intros _ H. unfold extractMetaContent.
  destruct (js_match (metaTagRe itemprop) html) as [m|] eqn:Hm; [|reflexivity].
  destruct H as [H|[H|H]].
  - exfalso. apply metaTagRe_inv in Hm as (a & tag & txt & ip & b & E & Htag & _).
    exact (occursb_i_false _ _ a tag _ H Htag E).
  - exfalso. apply metaTagRe_inv in Hm as (a & tag & txt & ip & b & E & _ & Hip).
    apply (occursb_i_false _ _ (a ++ tag ++ txt) ip b H Hip).
    rewrite E, <- !app_assoc. reflexivity.
  - apply js_match_substring in Hm as (a & rest & E).
    rewrite truthy_or_empty.
    unfold contentRe. rewrite lit_search_None; [reflexivity|].
    destruct (occursb (js "content=") (grp m 0)) eqn:Ho; [|reflexivity].
    exfalso. apply occursb_true in Ho as (a' & b' & Ho).
    apply (occursb_false _ _ H (a ++ a') (b' ++ rest)).
    rewrite E, Ho, <- !app_assoc. reflexivity.
Qed.

Lemma extractMetaContent_missing_witness :
  extractMetaContent
    (js "<META ITEMPROP=" ++ [dq] ++ js "name" ++ [dq] ++ js " CONTENT='Joe' >")
    (js "name") = [].
Proof.
  apply extractMetaContent_missing.
  - vm_compute. reflexivity.
  - right. right. vm_compute. reflexivity.
Defined.

(** ** The handler in general *)

(** Without a URL nothing is fetched: the answer does not depend on the
    network.  A preflight request is answered with 204 and an empty body,
    with or without a URL; any other request without a URL, or with an
    empty one, is answered with 400 and the error text. *)
Theorem googleReviewScraper_without_fetch
    (fetch : jsstr -> list (jsstr * jsstr) -> fetch_outcome) (pick : nat)
    (req : request) :
  (method req = js "OPTIONS" ->
   googleReviewScraper fetch pick req
   = {| Reply.status := 204; Reply.headers := cors; Reply.payload := Reply.Text [] |})
  /\ (method req <> js "OPTIONS" ->
      query_url req = None \/ query_url req = Some [] ->
      googleReviewScraper fetch pick req
      = {| Reply.status := 400; Reply.headers := cors;
           Reply.payload := Reply.Error (js "URL parameter is required") |}).
Proof.
  unfold googleReviewScraper. split.
  - intros H. rewrite bool_decide_eq_true_2 by exact H. reflexivity.
  - intros H Hq. rewrite bool_decide_eq_false_2 by exact H.
    destruct Hq as [-> | ->]; reflexivity.
Qed.

(** Every answer of the handler, in both variants, carries the three CORS
    headers, and its status is one of 200, 204, 400 and 500. *)
Theorem googleReviewScraper_cors_and_status
    (fetch : jsstr -> list (jsstr * jsstr) -> fetch_outcome) (pick : nat)
    (patterns : list (jsstr * regex)) (type_error : jsstr) (req : request) :
  let r1 := googleReviewScraper fetch pick req in
  let r2 := Variant2.googleReviewScraper patterns type_error fetch pick req in
  Reply.headers r1 = cors /\ Reply.headers r2 = cors
  /\ Reply.status r1 ∈ [200; 204; 400; 500]
  /\ Reply.status r2 ∈ [200; 204; 400; 500].
Proof.
  cbv zeta. unfold googleReviewScraper, Variant2.googleReviewScraper.
  case_bool_decide.
  - cbn. repeat split; auto; set_solver.
  - destruct (query_url req) as [url|].
    + destruct (truthy url); cbn [negb].
      * destruct (fetch url (fetch_headers pick)) as [msg|status [html|msg]].
        -- cbn. repeat split; auto; set_solver.
        -- unfold Variant2.scrape.
           destruct (Variant2.matchTitle patterns (Variant2.name html)) as [[[b r] l]|];
             cbn; repeat split; auto; set_solver.
        -- cbn. repeat split; auto; set_solver.
      * cbn. repeat split; auto; set_solver.
    + cbn. repeat split; auto; set_solver.
Qed.

(** A page without a meta tag is no failure: it is answered with 200 and
    success, with two empty names, the rating 0 and the placeholder
    sentence of the page language as the content. *)
Theorem scrape_page_without_meta (url : jsstr) (status : Z) (html : jsstr) :
  occursb_i (js "<meta") html = false ->
  scrape url status html
  = {| Reply.status := 200; Reply.headers := cors;
       Reply.payload :=
         Reply.Success
           {| Reply.businessName := []; Reply.reviewerName := [];
              Reply.rating := 0;
              Reply.reviewContent := placeholder (pageLang html);
              Reply.lang := {| Reply.detected := pageLang html;
                               Reply.pageLang := pageLang html |} |}
           {| Reply.url := url;
              Reply.has := {| Reply.hasBusinessName := false;
                              Reply.hasReviewerName := false;
                              Reply.hasReviewContent := true |};
              Reply.statusCode := status;
              Reply.rawMeta := Some ([], []) |} |}.
Proof.
  intros H. unfold scrape.
  rewrite !extractMetaContent_no_meta by exact H.
  assert (Et : parseReviewTitle [] = {| businessName := []; reviewerName := [] |})
    by (vm_compute; reflexivity).
  assert (Ec : getReviewContent [] (pageLang html) = placeholder (pageLang html))
    by (apply getReviewContent_blank; vm_compute; reflexivity).
  rewrite Et, Ec, placeholder_truthy. reflexivity.
Qed.

Lemma scrape_page_without_meta_witness :
  Reply.success (scrape (js "https://example.com") 404 (js "<html><body>Not Found</body></html>"))
  = Some true.
Proof.
  rewrite (scrape_page_without_meta (js "https://example.com") 404
             (js "<html><body>Not Found</body></html>")).
  - reflexivity.
  - vm_compute. reflexivity.
Defined.

(** ** The older variant in general *)

Lemma glyph_class (c : Z) :
  oneof [star_filled; star_empty] c = true <-> rating_glyph c.
Proof.
  unfold oneof, rating_glyph. cbn [existsb].
  rewrite orb_false_r, orb_true_iff, !Z.eqb_eq. tauto.
Qed.

Lemma forallb_glyph_class (stars : jsstr) :
  Forall rating_glyph stars -> forallb (oneof [star_filled; star_empty]) stars = true.
Proof.
  induction 1 as [|c stars Hc _ IH]; [reflexivity|].
  cbn [forallb]. rewrite IH, andb_true_r. apply glyph_class, Hc.
Qed.

(** The review pattern of the older variant on the usual shape of a
    description: its group is the text between the quotes. *)
Lemma reviewRegex_hit (stars ws inner : jsstr) :
  stars <> [] -> Forall rating_glyph stars -> forallb space ws = true ->
  forallb dot inner = true ->
  js_match Variant2.reviewRegex (stars ++ ws ++ [dq] ++ inner ++ [dq])
  = Some [stars ++ ws ++ [dq] ++ inner ++ [dq]; inner].
Proof.
  intros Hne Hstars Hws Hdot.
  unfold js_match, Variant2.reviewRegex. rewrite search_Bos. unfold match_at.
  cbn [run Nat.eqb item_match].
  rewrite (many_greedy_longest 1 _ _ [] stars _ ([inner], [])).
  - rewrite Nat.sub_0_r, firstn_all. reflexivity.
  - apply forallb_glyph_class, Hstars.
  - intros c t E. destruct (oneof [star_filled; star_empty] c) eqn:Hc; [|reflexivity].
    exfalso. apply glyph_class in Hc.
    destruct ws as [|w ws].
    + injection E as <- _. destruct Hc; discriminate.
    + injection E as <- _. cbn [forallb] in Hws.
      apply andb_true_iff in Hws as [Hw _]. exact (space_not_glyph _ Hw Hc).
  - destruct stars; [contradiction|]. cbn [length]. lia.
  - cbn [app].
    rewrite (many_greedy_longest 0 space _ [] ws _ ([inner], [])).
    + reflexivity.
    + exact Hws.
    + intros c t [= <- _]. reflexivity.
    + lia.
    + cbn [app]. change (chr dq dq) with true. cbv iota.
      rewrite (many_lazy_first dot _ [] inner [dq] ([inner], [])).
      * reflexivity.
      * exact Hdot.
      * intros t1 t2 _ Ht2. destruct t2 as [|c t2]; [contradiction|].
        cbn [app run item_match]. destruct (chr dq c); [|reflexivity].
        destruct t2; reflexivity.
      * reflexivity.
Qed.

(** On the usual shape of a description the older variant returns the text
    between the quotes, decoded; it neither trims it nor removes the rating
    glyphs inside it. *)
Theorem Variant2_reviewContent_quoted (stars ws inner : jsstr) :
  stars <> [] -> Forall rating_glyph stars -> forallb space ws = true ->
  forallb dot inner = true ->
  Variant2.reviewContent (stars ++ ws ++ [dq] ++ inner ++ [dq])
  = decodeHTMLEntities inner.
Proof.
  intros Hne Hstars Hws Hdot. unfold Variant2.reviewContent.
  rewrite reviewRegex_hit by assumption. reflexivity.
Qed.

Lemma Variant2_reviewContent_quoted_witness :
  Variant2.reviewContent (js "★★★★★" ++ js " " ++ [dq] ++ js " Tom &amp; Jerry ★ " ++ [dq])
  = js " Tom & Jerry ★ ".
Proof.
  refine (eq_trans (Variant2_reviewContent_quoted (js "★★★★★") (js " ")
                      (js " Tom &amp; Jerry ★ ") _ _ _ _) _).
  - vm_compute. discriminate.
  - vm_compute. repeat constructor.
  - vm_compute. reflexivity.
  - vm_compute. reflexivity.
  - vm_compute. reflexivity.
Defined.

Lemma filter_no_glyph (inner : jsstr) :
  Forall (fun c => ~ rating_glyph c) inner ->
  filter (fun c => ~ rating_glyph c) inner = inner.
Proof.
  induction 1 as [|c inner Hc _ IH]; [reflexivity|].
  rewrite filter_cons_True by exact Hc. rewrite IH. reflexivity.
Qed.

(** The two variants agree on the usual shape of a description when the
    text between the quotes has no ampersand and no rating glyph and is
    already trimmed. *)
Theorem variants_agree_on_quoted (stars ws inner language : jsstr) :
  stars <> [] -> Forall rating_glyph stars -> forallb space ws = true ->
  forallb dot inner = true ->
  38 ∉ inner -> Forall (fun c => ~ rating_glyph c) inner -> trim inner = inner ->
  getReviewContent (decodeHTMLEntities (stars ++ ws ++ [dq] ++ inner ++ [dq])) language
  = Variant2.reviewContent (stars ++ ws ++ [dq] ++ inner ++ [dq]).
Proof.
  intros Hne Hstars Hws Hdot Hamp Hglyph Htrim.
  unfold Variant2.reviewContent. rewrite reviewRegex_hit by assumption.
  cbn [grp nth].
  rewrite (decode_no_ampersand inner) by exact Hamp.
  rewrite decode_no_ampersand.
  - rewrite content_quoted by assumption.
    rewrite filter_no_glyph by exact Hglyph. exact Htrim.
  - rewrite !not_elem_of_app. repeat split.
    + intros H. rewrite Forall_forall in Hstars.
      destruct (Hstars _ H); discriminate.
    + intros H. rewrite forallb_forall in Hws.
      apply list_elem_of_In, Hws in H. discriminate H.
    + apply not_elem_of_cons. split; [discriminate|inversion 1].
    + exact Hamp.
    + apply not_elem_of_cons. split; [discriminate|inversion 1].
Qed.

Lemma variants_agree_on_quoted_witness :
  getReviewContent
    (decodeHTMLEntities (js "★★★★★" ++ js " " ++ [dq] ++ js "Great service!" ++ [dq]))
    (js "en")
  = Variant2.reviewContent (js "★★★★★" ++ js " " ++ [dq] ++ js "Great service!" ++ [dq]).
Proof.
  apply (variants_agree_on_quoted (js "★★★★★") (js " ") (js "Great service!") (js "en")).
  - vm_compute. discriminate.
  - vm_compute. repeat constructor.
  - vm_compute. reflexivity.
  - vm_compute. reflexivity.
  - vm_compute. intros H.
    repeat (apply elem_of_cons in H as [H|H]; [discriminate|]). inversion H.
  - vm_compute. repeat (constructor; [intros [H|H]; discriminate H|]). constructor.
  - vm_compute. reflexivity.
Defined.

(** A description that does not start with a rating glyph has no review
    content in the older variant, whatever its text. *)
Theorem Variant2_reviewContent_without_stars (description : jsstr) :
  (forall c t, description = c :: t -> ~ rating_glyph c) ->
  Variant2.reviewContent description = [].
Proof.
  intros H. unfold Variant2.reviewContent, js_match, Variant2.reviewRegex.
  rewrite search_Bos. unfold match_at. cbn [run Nat.eqb item_match].
  rewrite many_None; [reflexivity|].
  intros txt rest -> Hall Hlen.
  destruct txt as [|c txt]; [cbn in Hlen; lia|].
  exfalso. cbn [forallb] in Hall. apply andb_true_iff in Hall as [Hc _].
  apply glyph_class in Hc. exact (H c _ eq_refl Hc).
Qed.

Lemma Variant2_reviewContent_without_stars_witness :
  Variant2.reviewContent ([dq] ++ js "Great service!" ++ [dq]) = []
  /\ getReviewContent ([dq] ++ js "Great service!" ++ [dq]) (js "en") = js "Great service!".
Proof.
  split.
  - apply Variant2_reviewContent_without_stars.
    intros c t [= <- _] [H|H]; discriminate H.
  - vm_compute. reflexivity.
Defined.

(** The loop over the title patterns of the older variant.  When no
    pattern matches the name, business name, reviewer name and detected
    language stay empty.  The first pattern that matches decides: with two
    groups in its match, the names are the groups trimmed and then decoded
    and the language is the pattern's key; with fewer, reading the missing
    group throws, and the handler answers 500 with the error's message. *)
Theorem Variant2_matchTitle_first
    (before after : list (jsstr * regex)) (lang : jsstr) (pattern : regex)
    (name : jsstr) (m : list jsstr) :
  Forall (fun p => js_match p.2 name = None) before ->
  Variant2.matchTitle before name = Some ([], [], [])
  /\ (js_match pattern name = Some m ->
      Variant2.matchTitle (before ++ (lang, pattern) :: after) name
      = match m with
        | _ :: business :: reviewer :: _ =>
          Some (decodeHTMLEntities (trim business),
                decodeHTMLEntities (trim reviewer), lang)
        | _ => None
        end)
  /\ (js_match pattern name = Some m -> (length m < 3)%nat ->
      forall (type_error url : jsstr) (status : Z) (html : jsstr),
        Variant2.name html = name ->
        Variant2.scrape (before ++ (lang, pattern) :: after) type_error url status html
        = failure type_error).
Proof.
  intros Hb.
  assert (Hfirst : forall rest,
            Variant2.matchTitle (before ++ rest) name = Variant2.matchTitle rest name).
  { intros rest. induction Hb as [|[l p] before Hp _ IH]; [reflexivity|].
    cbn [app Variant2.matchTitle]. cbn [snd] in Hp. rewrite Hp. exact IH. }
  assert (Hhit : js_match pattern name = Some m ->
            Variant2.matchTitle (before ++ (lang, pattern) :: after) name
            = match m with
              | _ :: business :: reviewer :: _ =>
                Some (decodeHTMLEntities (trim business),
                      decodeHTMLEntities (trim reviewer), lang)
              | _ => None
              end).
  { intros Hm. rewrite Hfirst. cbn [Variant2.matchTitle]. rewrite Hm.
    destruct m as [|w [|g1 [|g2 gs]]]; reflexivity. }
  split; [|split].
  - rewrite <- (app_nil_r before). rewrite Hfirst. reflexivity.
  - exact Hhit.
  - intros Hm Hlen type_error url status html <-.
    unfold Variant2.scrape. cbv zeta. rewrite (Hhit Hm).
    destruct m as [|w [|g1 [|g2 gs]]]; try reflexivity.
    cbn [length] in Hlen. lia.
Qed.

Lemma Variant2_matchTitle_first_witness :
  Variant2.matchTitle
    [(js "de", (lit (js "Google-Rezension über ") ++ [Group (Many false 0 dot)]
       ++ lit (js " von ") ++ [Group (Many true 0 dot)]));
     (js "en", (lit (js "Google review of ") ++ [Group (Many false 0 dot)]
       ++ lit (js " by ") ++ [Group (Many true 0 dot)]))]
    (js "Google review of Tom &amp; Jerry by  Jane ")
  = Some (js "Tom & Jerry", js "Jane", js "en")
  /\ Variant2.matchTitle
       [(js "de", (lit (js "Google-Rezension über ") ++ [Group (Many false 0 dot)]
       ++ lit (js " von ") ++ [Group (Many true 0 dot)]))]
       (js "Google review of Tom &amp; Jerry by  Jane ")
     = Some ([], [], [])
  /\ Variant2.matchTitle
       [(js "de", (lit (js "Google-Rezension über ") ++ [Group (Many false 0 dot)]
       ++ lit (js " von ") ++ [Group (Many true 0 dot)]));
        (js "en", (lit (js "Google review of ") ++ [Group (Many true 0 dot)]))]
       (js "Google review of Tom &amp; Jerry by  Jane ")
     = None.
Proof.
  pose (de := (lit (js "Google-Rezension über ") ++ [Group (Many false 0 dot)]
       ++ lit (js " von ") ++ [Group (Many true 0 dot)])).
  pose (en := (lit (js "Google review of ") ++ [Group (Many false 0 dot)]
       ++ lit (js " by ") ++ [Group (Many true 0 dot)])).
  pose (short := (lit (js "Google review of ") ++ [Group (Many true 0 dot)])).
  pose (name := (js "Google review of Tom &amp; Jerry by  Jane ")).
  assert (Hde : Forall (fun p : jsstr * regex => js_match p.2 name = None)
                  [(js "de", de)]).
  { constructor; [vm_compute; reflexivity|constructor]. }
  split; [|split].
  - refine (eq_trans
      (proj1 (proj2 (Variant2_matchTitle_first [(js "de", de)] [] (js "en") en name
        [name; js "Tom &amp; Jerry"; js " Jane "] Hde)) _) _);
      vm_compute; reflexivity.
  - exact (proj1 (Variant2_matchTitle_first [(js "de", de)] [] (js "en") en name
        [] Hde)).
  - refine (eq_trans
      (proj1 (proj2 (Variant2_matchTitle_first [(js "de", de)] [] (js "en") short name
        [name; js "Tom &amp; Jerry by  Jane "] Hde)) _) _);
      vm_compute; reflexivity.
Defined.

(** ** The content of a meta tag *)

Lemma canonicalize_gt (x : Z) : canonicalize x = 62 -> x = 62.
Proof.
  unfold canonicalize.
  destruct ((97 <=? x) && (x <=? 122)) eqn:H1.
  - apply andb_true_iff in H1 as [H1 _]. apply Z.leb_le in H1. lia.
  - destruct ((0xE0 <=? x) && (x <=? 0xFE) && negb (x =? 0xF7)) eqn:H2; [|auto].
    apply andb_true_iff in H2 as [H2 _]. apply andb_true_iff in H2 as [H2 _].
    apply Z.leb_le in H2. lia.
Qed.

Lemma canonicalize_no_gt (n n' : jsstr) :
  map canonicalize n' = map canonicalize n -> 62 ∉ n -> 62 ∉ n'.
Proof.
  intros E Hn Hin. apply Hn.
  apply (list_elem_of_fmap_2 canonicalize) in Hin.
  change (canonicalize 62) with 62 in Hin.
  change (canonicalize <$> n') with (map canonicalize n') in Hin.
  rewrite E in Hin. apply list_elem_of_fmap in Hin as (x & Hx & Hin).
  symmetry in Hx. apply canonicalize_gt in Hx as ->. exact Hin.
Qed.

Lemma first_occurrence_length (c : Z) (l1 r1 l2 r2 : jsstr) :
  l1 ++ c :: r1 = l2 ++ r2 -> c ∉ l2 -> (length l2 <= length l1)%nat.
Proof.
  revert l2.
  induction l1 as [|x l1 IH]; intros l2 E Hc.
  - destruct l2 as [|y l2]; [cbn; lia|].
    injection E as <- _. exfalso. apply Hc. left.
  - destruct l2 as [|y l2]; [cbn; lia|].
    injection E as _ E. apply not_elem_of_cons in Hc as [_ Hc].
    cbn [length]. specialize (IH l2 E Hc). lia.
Qed.

(** The match of the meta tag pattern on a page whose first meta tag has
    the wanted itemprop as its last attribute: the tag itself. *)
Lemma metaTagRe_hit (pre attrs itemprop rest : jsstr) :
  occursb_i (js "<meta") (pre ++ js "<met") = false ->
  62 ∉ attrs -> 62 ∉ itemprop ->
  js_match (metaTagRe itemprop)
    (pre ++ (js "<meta" ++ attrs ++ (js "itemprop=" ++ [dq] ++ itemprop ++ [dq]) ++ js ">")
         ++ rest)
  = Some [js "<meta" ++ attrs ++ (js "itemprop=" ++ [dq] ++ itemprop ++ [dq]) ++ js ">"].
Proof.
  intros Hpre Hattrs Hip.
  set (N := js "itemprop=" ++ [dq] ++ itemprop ++ [dq]).
  assert (HN : 62 ∉ N).
  { unfold N. rewrite !not_elem_of_app. repeat split.
    - vm_compute. intros H.
      repeat (apply elem_of_cons in H as [H|H]; [discriminate|]). inversion H.
    - apply not_elem_of_cons. split; [discriminate|inversion 1].
    - exact Hip.
    - apply not_elem_of_cons. split; [discriminate|inversion 1]. }
  unfold js_match. apply search_first.
  - intros a1 a2 -> Ha2. unfold match_at.
    destruct (run (metaTagRe itemprop) _ [] _) as [[caps r]|] eqn:H; [|reflexivity].
    exfalso. unfold metaTagRe in H.
    apply run_lit_i_Some in H as (M & r1 & E & HM & _).
    replace (js "<meta") with (js "<met" ++ [97]) in E at 1 by (vm_compute; reflexivity).
    rewrite <- !app_assoc in E. rewrite (app_assoc a2) in E.
    apply app_prefix_le in E as [b E].
    + apply (occursb_i_false _ _ a1 M b Hpre HM).
      rewrite <- app_assoc, E. reflexivity.
    + apply (f_equal length) in HM. rewrite !length_map in HM.
      rewrite HM, length_app. destruct a2; [contradiction|].
      assert (E5 : length (js "<meta") = 5%nat) by (vm_compute; reflexivity).
      assert (E4 : length (js "<met") = 4%nat) by (vm_compute; reflexivity).
      rewrite E5, E4. cbn [length]. lia.
  - unfold match_at, metaTagRe. fold N.
    rewrite <- !app_assoc.
    rewrite run_lit_i_app by reflexivity. cbn [app run item_match].
    replace (js ">") with [62] by (vm_compute; reflexivity).
    rewrite (many_greedy_pick (not_chr 62) _ [] attrs _ ([], rest)).
    + pose proof (take_matched (js "<meta" ++ attrs ++ N ++ [62]) rest) as Ht.
      rewrite <- !app_assoc in Ht. rewrite Ht. reflexivity.
    + apply not_chr_forallb, Hattrs.
    + rewrite run_lit_i_app by reflexivity. cbn [app run item_match].
      change (lit_i [62]) with [Plain (One (chr_i 62))].
      rewrite (many_greedy_longest 0 (not_chr 62) _ [] [] (62 :: rest) ([], rest));
        auto.
      intros c t [= <- _]. reflexivity.
    + intros m1 m2 E Hm1 Hp.
      destruct (run _ _ [] m2) as [[caps r]|] eqn:H; [|reflexivity].
      exfalso. apply run_lit_i_Some in H as (N' & r1 & -> & HN' & _).
      rewrite (app_assoc m1 N' r1) in E.
      change ([62] ++ rest) with (62 :: rest) in E.
      apply first_occurrence_length in E.
      * apply (f_equal length) in HN'. rewrite !length_map in HN'.
        rewrite length_app, HN' in E. destruct m1; [contradiction|].
        cbn [length] in E. lia.
      * apply not_elem_of_app. split; [apply forallb_not_chr, Hp|].
        exact (canonicalize_no_gt N N' HN' HN).
Qed.

(** The match of the content pattern in a tag: the first content attribute,
    its quote and its value up to the same quote. *)
Lemma contentRe_hit (a v b : jsstr) (q : Z) :
  occursb (js "content=") (a ++ js "content") = false ->
  q = sq \/ q = dq -> q ∉ v -> forallb dot v = true ->
  js_match contentRe (a ++ js "content=" ++ [q] ++ v ++ [q] ++ b)
  = Some [js "content=" ++ [q] ++ v ++ [q]; [q]; v].
Proof.
  intros Ha Hq Hv Hdot. unfold js_match. apply search_first.
  - intros a1 a2 -> Ha2. unfold match_at.
    destruct (run contentRe _ [] _) as [[caps r]|] eqn:H; [|reflexivity].
    exfalso. unfold contentRe in H.
    apply run_lit_Some in H as (r1 & E & _).
    replace (js "content=") with (js "content" ++ [61]) in E at 1
      by (vm_compute; reflexivity).
    rewrite <- !app_assoc in E. rewrite (app_assoc a2) in E.
    apply app_prefix_le in E as [z E].
    + apply (occursb_false _ _ Ha a1 z).
      rewrite <- app_assoc, E. reflexivity.
    + rewrite length_app. destruct a2; [contradiction|].
      assert (E8 : length (js "content=") = 8%nat) by (vm_compute; reflexivity).
      assert (E7 : length (js "content") = 7%nat) by (vm_compute; reflexivity).
      rewrite E8, E7. cbn [length]. lia.
  - unfold match_at, contentRe. rewrite run_lit_app.
    cbn [app run item_match].
    assert (Hclass : oneof [sq; dq] q = true) by (destruct Hq as [-> | ->]; reflexivity).
    rewrite Hclass.
    rewrite (many_lazy_first dot _ [] v (q :: b) ([[q]; v], b)).
    + pose proof (take_matched (js "content=" ++ [q] ++ v ++ [q]) b) as Ht.
      rewrite <- !app_assoc in Ht. cbn [app] in Ht. rewrite Ht. reflexivity.
    + exact Hdot.
    + intros t1 t2 -> Ht2. destruct t2 as [|c t2]; [contradiction|].
      cbn [app nth pred length take].
      rewrite bool_decide_eq_false_2; [reflexivity|].
      intros [= ->]. apply Hv. apply elem_of_app. right. left.
    + cbn [app nth pred length take drop].
      rewrite bool_decide_eq_true_2 by reflexivity. reflexivity.
Qed.

(** The content of the first meta tag of a page, for an itemprop that
    stands for itself in the pattern, when the tag has the wanted itemprop
    as its last attribute and one content attribute before it: the value
    between the quotes, decoded. *)
Theorem extractMetaContent_of_tag (pre a0 a1 v itemprop rest : jsstr) (q : Z) :
  literal_itemprop itemprop = true ->
  occursb_i (js "<meta") (pre ++ js "<met") = false ->
  occursb (js "content=") (js "<meta" ++ a0 ++ js "content") = false ->
  62 ∉ a0 -> 62 ∉ v -> 62 ∉ a1 -> 62 ∉ itemprop ->
  q = sq \/ q = dq -> q ∉ v -> forallb dot v = true ->
  extractMetaContent
    (pre ++ (js "<meta" ++ (a0 ++ js "content=" ++ [q] ++ v ++ [q] ++ a1)
               ++ (js "itemprop=" ++ [dq] ++ itemprop ++ [dq]) ++ js ">") ++ rest)
    itemprop
  = decodeHTMLEntities v.
Proof.
  intros _ Hpre Hc H0 Hv62 H1 Hip Hq Hv Hdot.
  unfold extractMetaContent.
  rewrite metaTagRe_hit; [|exact Hpre| |exact Hip].
  - cbn [grp nth]. rewrite truthy_or_empty.
    replace (js "<meta" ++ (a0 ++ js "content=" ++ [q] ++ v ++ [q] ++ a1)
               ++ (js "itemprop=" ++ [dq] ++ itemprop ++ [dq]) ++ js ">")
      with ((js "<meta" ++ a0) ++ js "content=" ++ [q] ++ v ++ [q]
               ++ (a1 ++ (js "itemprop=" ++ [dq] ++ itemprop ++ [dq]) ++ js ">"))
      by (rewrite <- !app_assoc; reflexivity).
    rewrite contentRe_hit; auto.
  - assert (Hq62 : q <> 62) by (destruct Hq as [-> | ->]; discriminate).
    rewrite !not_elem_of_app. repeat split; auto.
    + vm_compute. intros H.
      repeat (apply elem_of_cons in H as [H|H]; [discriminate|]). inversion H.
    + apply not_elem_of_cons. split; [congruence|inversion 1].
    + apply not_elem_of_cons. split; [congruence|inversion 1].
Qed.

Lemma extractMetaContent_of_tag_witness :
  extractMetaContent
    (js "<html><head>"
     ++ (js "<meta" ++ (js " " ++ js "content=" ++ [dq] ++ js "Google review of Tom &amp; Jerry by Jane" ++ [dq] ++ js " ")
           ++ (js "itemprop=" ++ [dq] ++ js "name" ++ [dq]) ++ js ">")
     ++ js "</head></html>")
    (js "name")
  = js "Google review of Tom & Jerry by Jane".
Proof.
  refine (eq_trans (extractMetaContent_of_tag (js "<html><head>") (js " ") (js " ")
                      (js "Google review of Tom &amp; Jerry by Jane") (js "name")
                      (js "</head></html>") dq _ _ _ _ _ _ _ _ _ _) _).
  - vm_compute. reflexivity.
  - vm_compute. reflexivity.
  - vm_compute. reflexivity.
  - vm_compute. intros H.
    repeat (apply elem_of_cons in H as [H|H]; [discriminate|]). inversion H.
  - vm_compute. intros H.
    repeat (apply elem_of_cons in H as [H|H]; [discriminate|]). inversion H.
  - vm_compute. intros H.
    repeat (apply elem_of_cons in H as [H|H]; [discriminate|]). inversion H.
  - vm_compute. intros H.
    repeat (apply elem_of_cons in H as [H|H]; [discriminate|]). inversion H.
  - right. reflexivity.
  - vm_compute. intros H.
    repeat (apply elem_of_cons in H as [H|H]; [discriminate|]). inversion H.
  - vm_compute. reflexivity.
  - vm_compute. reflexivity.
Defined.

(** ** The rating in general *)

Lemma countStars_app (a b : jsstr) :
  countStars (a ++ b) = (countStars a + countStars b)%nat.
Proof. rewrite !countStars_filter, filter_app, length_app. reflexivity. Qed.

(** The rating is the number of filled stars wherever they stand: it is not
    capped at five, the empty stars add nothing, and a filled star inside
    the text counts like the ones in front of it. *)
Theorem countStars_layout (n m : nat) (text : jsstr) :
  countStars (replicate n star_filled ++ replicate m star_empty ++ text)
  = (n + countStars text)%nat.
Proof.
  rewrite !countStars_app.
  assert (Hf : countStars (replicate n star_filled) = n).
  { rewrite countStars_filter. induction n as [|n IH]; [reflexivity|].
    cbn [replicate]. rewrite filter_cons_True by reflexivity.
    cbn [length]. rewrite IH. reflexivity. }
  assert (He : countStars (replicate m star_empty) = 0%nat).
  { rewrite countStars_filter. induction m as [|m IH]; [reflexivity|].
    cbn [replicate]. rewrite filter_cons_False by discriminate. exact IH. }
  rewrite Hf, He. reflexivity.
Qed.

(** ** The title templates of both handlers *)









